(** * Io plasma torus: the particle simulation of [src/app/page.tsx]

    The development embeds the simulation core of the page component: the
    dipole field [getMagneticFieldVector], the eruption state machine, the
    particle emitter and the per-particle update loop of [animate], and
    proves what the specification claims about them.

    Numbers.  A JavaScript number is modelled by [num]: a real number or one
    of the three IEEE special values.  Arithmetic on finite values is exact
    (no rounding, no overflow, one zero); the special values follow IEEE 754,
    which is what the guards of the program ([isNaN], the distance test)
    observe.  The buffers are [Float32Array]s; their rounding is not
    modelled either.

    three.js.  The vector operations that the page calls are written after
    the source of the library, on [num].

    Randomness.  [Math.random ()] is modelled by the sequence of values it
    returns during one call of [animate], read in order through a cursor.
    The values are rationals, as every double is. *)

From Stdlib Require Import Reals Lra Lia ZArith QArith Qround Qreals RNsatz.
From stdpp Require Import base list.

Local Open Scope R_scope.

(** ** Numbers *)

Inductive num : Type :=
  | Fin (r : R)
  | PInf
  | NInf
  | NaN.

Definition Rltb (a b : R) : bool := if Rlt_dec a b then true else false.
Definition Reqb (a b : R) : bool := if Req_dec_T a b then true else false.

(** The infinity of the sign of [r]; [r] is not zero where this is used. *)
Definition inf_of_sign (r : R) : num := if Rltb 0 r then PInf else NInf.

Definition nneg (a : num) : num :=
  match a with
  | Fin r => Fin (- r)
  | PInf => NInf
  | NInf => PInf
  | NaN => NaN
  end.

Definition nadd (a b : num) : num :=
  match a, b with
  | NaN, _ | _, NaN => NaN
  | Fin r, Fin s => Fin (r + s)
  | PInf, NInf | NInf, PInf => NaN
  | PInf, _ | _, PInf => PInf
  | NInf, _ | _, NInf => NInf
  end.

Definition nsub (a b : num) : num := nadd a (nneg b).

Definition nmul (a b : num) : num :=
  match a, b with
  | NaN, _ | _, NaN => NaN
  | Fin r, Fin s => Fin (r * s)
  | Fin r, PInf | PInf, Fin r => if Reqb r 0 then NaN else inf_of_sign r
  | Fin r, NInf | NInf, Fin r => if Reqb r 0 then NaN else inf_of_sign (- r)
  | PInf, PInf | NInf, NInf => PInf
  | PInf, NInf | NInf, PInf => NInf
  end.

Definition ndiv (a b : num) : num :=
  match a, b with
  | NaN, _ | _, NaN => NaN
  | Fin r, Fin s =>
      if Reqb s 0 then (if Reqb r 0 then NaN else inf_of_sign r)
      else Fin (r / s)
  | Fin _, (PInf | NInf) => Fin 0
  | PInf, Fin s => if Rltb s 0 then NInf else PInf
  | NInf, Fin s => if Rltb s 0 then PInf else NInf
  | (PInf | NInf), (PInf | NInf) => NaN
  end.

Definition nsqrt (a : num) : num :=
  match a with
  | Fin r => if Rltb r 0 then NaN else Fin (sqrt r)
  | PInf => PInf
  | NInf | NaN => NaN
  end.

Definition nexp (a : num) : num :=
  match a with
  | Fin r => Fin (exp r)
  | PInf => PInf
  | NInf => Fin 0
  | NaN => NaN
  end.

Definition nsin (a : num) : num :=
  match a with Fin r => Fin (sin r) | _ => NaN end.

Definition ncos (a : num) : num :=
  match a with Fin r => Fin (cos r) | _ => NaN end.

(** [a < b]; false as soon as one side is NaN. *)
Definition nlt (a b : num) : bool :=
  match a, b with
  | NaN, _ | _, NaN => false
  | Fin r, Fin s => Rltb r s
  | NInf, (Fin _ | PInf) => true
  | Fin _, PInf => true
  | _, _ => false
  end.

Definition ngt (a b : num) : bool := nlt b a.

Definition isNaN (a : num) : bool :=
  match a with NaN => true | _ => false end.

(** [Math.min] and [Math.max]: NaN as soon as one argument is. *)
Definition nmin (a b : num) : num :=
  match a, b with
  | NaN, _ | _, NaN => NaN
  | _, _ => if nlt b a then b else a
  end.

Definition nmax (a b : num) : num :=
  match a, b with
  | NaN, _ | _, NaN => NaN
  | _, _ => if nlt a b then b else a
  end.

(** [a || b] on numbers: [a] is falsy when it is zero or NaN. *)
Definition nor (a b : num) : num :=
  match a with
  | NaN => b
  | Fin r => if Reqb r 0 then b else a
  | _ => a
  end.

Definition is_finite (a : num) : Prop :=
  match a with Fin _ => True | _ => False end.

Declare Scope num_scope.
Delimit Scope num_scope with num.
Bind Scope num_scope with num.
Infix "+" := nadd : num_scope.
Infix "-" := nsub : num_scope.
Infix "*" := nmul : num_scope.
Infix "/" := ndiv : num_scope.
Notation "- a" := (nneg a) : num_scope.

(** A rational draw or constant as a number. *)
Definition ofQ (q : Q) : num := Fin (Q2R q).

(** ** THREE.Vector3 *)

Record Vector3 : Type := V3 { vx : num; vy : num; vz : num }.

Definition vfin (a b c : R) : Vector3 := V3 (Fin a) (Fin b) (Fin c).

Definition finite_vec (v : Vector3) : Prop :=
  is_finite (vx v) /\ is_finite (vy v) /\ is_finite (vz v).

(** The operations of [THREE.Vector3] and [THREE.Quaternion] that the page
    calls. *)
Module THREE.

(** [v.length ()] *)
Definition length (v : Vector3) : num :=
  nsqrt (vx v * vx v + vy v * vy v + vz v * vz v)%num.

(** [v.multiplyScalar (s)] *)
Definition multiplyScalar (v : Vector3) (s : num) : Vector3 :=
  V3 (vx v * s)%num (vy v * s)%num (vz v * s)%num.

(** [v.divideScalar (s)] multiplies by [1 / s]. *)
Definition divideScalar (v : Vector3) (s : num) : Vector3 :=
  multiplyScalar v (Fin 1 / s)%num.

(** [v.normalize ()] divides by [v.length () || 1]. *)
Definition normalize (v : Vector3) : Vector3 :=
  divideScalar v (nor (length v) (Fin 1)).

Definition add (v w : Vector3) : Vector3 :=
  V3 (vx v + vx w)%num (vy v + vy w)%num (vz v + vz w)%num.

Definition sub (v w : Vector3) : Vector3 :=
  V3 (vx v - vx w)%num (vy v - vy w)%num (vz v - vz w)%num.

Definition dot (v w : Vector3) : num :=
  (vx v * vx w + vy v * vy w + vz v * vz w)%num.

(** [v.cross (w)] *)
Definition cross (a b : Vector3) : Vector3 :=
  V3 (vy a * vz b - vz a * vy b)%num
     (vz a * vx b - vx a * vz b)%num
     (vx a * vy b - vy a * vx b)%num.

Record Quaternion : Type := Quat { qx : num; qy : num; qz : num; qw : num }.

(** [q.setFromAxisAngle (axis, angle)]; the axis is assumed normalized. *)
Definition setFromAxisAngle (axis : Vector3) (angle : num) : Quaternion :=
  let halfAngle := (angle / Fin 2)%num in
  let s := nsin halfAngle in
  Quat (vx axis * s)%num (vy axis * s)%num (vz axis * s)%num (ncos halfAngle).

(** [v.applyQuaternion (q)]: [t = 2 cross (q.xyz, v)], then
    [v + q.w t + cross (q.xyz, t)]. *)
Definition applyQuaternion (v : Vector3) (q : Quaternion) : Vector3 :=
  let tx := (Fin 2 * (qy q * vz v - qz q * vy v))%num in
  let ty := (Fin 2 * (qz q * vx v - qx q * vz v))%num in
  let tz := (Fin 2 * (qx q * vy v - qy q * vx v))%num in
  V3 (vx v + qw q * tx + qy q * tz - qz q * ty)%num
     (vy v + qw q * ty + qz q * tx - qx q * tz)%num
     (vz v + qw q * tz + qx q * ty - qy q * tx)%num.

(** [v.applyAxisAngle (axis, angle)] *)
Definition applyAxisAngle (v axis : Vector3) (angle : num) : Vector3 :=
  applyQuaternion v (setFromAxisAngle axis angle).

End THREE.

(** ** Constants of the page *)

Definition MAX_PARTICLES : Z := 1000.
Definition MAGNETIC_TILT : num := (Fin PI / Fin 10)%num.
Definition JUPITER_ROTATION_SPEED : num := Fin 0.002.
Definition MAGNETIC_FIELD_STRENGTH : num := Fin 0.2.
Definition TORUS_RADIUS : num := Fin 10.
Definition MAX_DISTANCE : num := Fin 30.
Definition MIN_DISTANCE : num := Fin 3.

Definition ERUPTION_DURATION : Z := 100.
Definition ERUPTION_COOLDOWN : Z := 200.
Definition ERUPTION_CHANCE : Q := 5 # 1000.
Definition PARTICLES_PER_FRAME_DURING_ERUPTION : nat := 5.
Definition BASE_EMISSION_RATE : Q := 1 # 10.

Definition MOONS_IO_ORBIT_RADIUS : num := Fin 12.
Definition MOONS_IO_ORBIT_SPEED : num := Fin 0.005.

(** ** The magnetic field *)

Definition axisX : Vector3 := vfin 1 0 0.
Definition axisY : Vector3 := vfin 0 1 0.

Definition getMagneticFieldVector (position : Vector3) (jupiterRotation : num)
  : Vector3 :=
  let magneticPos := THREE.applyAxisAngle position axisX MAGNETIC_TILT in
  let magneticPos := THREE.applyAxisAngle magneticPos axisY jupiterRotation in
  let r := THREE.length magneticPos in
  let r2 := (r * r)%num in
  let r5 := (r2 * r2 * r)%num in
  let m := axisY in
  let mDotR := THREE.dot m magneticPos in
  let field := THREE.multiplyScalar magneticPos (Fin 3 * mDotR)%num in
  let field := THREE.sub field (THREE.multiplyScalar m r2) in
  let field := THREE.divideScalar field r5 in
  let field := THREE.applyAxisAngle field axisY (- jupiterRotation)%num in
  let field := THREE.applyAxisAngle field axisX (- MAGNETIC_TILT)%num in
  THREE.multiplyScalar field MAGNETIC_FIELD_STRENGTH.

(** ** Random draws

    A computation reads the values of [Math.random ()] in order; the state
    is the number of values read so far. *)

Definition Rand (A : Type) : Type := (nat -> Q) -> nat -> A * nat.

Definition ret {A : Type} (a : A) : Rand A := fun _ k => (a, k).

Definition bind {A B : Type} (m : Rand A) (f : A -> Rand B) : Rand B :=
  fun rng k => let (a, k') := m rng k in f a rng k'.

Definition random : Rand Q := fun rng k => (rng k, S k).

Notation "'let*' x ':=' m 'in' k" := (bind m (fun x => k))
  (at level 10, x pattern, m at level 100, k at level 200).

(** [a < b] on rationals. *)
Definition Qltb (a b : Q) : bool :=
  match (a ?= b)%Q with Lt => true | _ => false end.

(** ** State of the simulation *)

Record Eruption : Type := mkEruption {
  isActive : bool;
  countdown : Z;
  cooldown : Z
}.

(** One slot of the three buffers [positions], [velocities] and [colors]:
    the entries [3 i], [3 i + 1], [3 i + 2] of each.  The three buffers have
    the same fixed length, so they are kept as one list of slots. *)
Record Particle : Type := mkParticle {
  position : Vector3;
  velocity : Vector3;
  color : Vector3
}.

Record ParticleSystem : Type := mkSystem {
  particles : list Particle;
  activeParticles : Z
}.

Record State : Type := mkState {
  jupiterRotationY : num;
  angle : num;
  eruption : Eruption;
  particleSystem : ParticleSystem
}.

Definition zero3 : Vector3 := vfin 0 0 0.

(** The buffers after the initialisation loop of the effect: positions and
    velocities zero, colors (1.0, 0.5, 0.2). *)
Definition initialParticle : Particle :=
  mkParticle zero3 zero3 (vfin 1.0 0.5 0.2).

Definition initialSystem : ParticleSystem :=
  mkSystem (replicate (Z.to_nat MAX_PARTICLES) initialParticle) 0.

Definition initialEruption : Eruption := mkEruption false 0 0.

Definition initialState : State :=
  mkState (Fin 0) (Fin 0) initialEruption initialSystem.

(** A write to a typed array at an index outside it is ignored. *)
Definition writeSlot (i : Z) (p : Particle) (ps : list Particle)
  : list Particle :=
  if (0 <=? i)%Z then <[Z.to_nat i := p]> ps else ps.

(** ** Emission *)

(** [source + (Math.random () - 0.5) * spread] on each axis, the draws taken
    in the order x, y, z. *)
Definition jitter (source : Vector3) (spread : num) : Rand Vector3 :=
  let* u1 := random in
  let* u2 := random in
  let* u3 := random in
  ret (V3 (vx source + (ofQ u1 - Fin 0.5) * spread)%num
          (vy source + (ofQ u2 - Fin 0.5) * spread)%num
          (vz source + (ofQ u3 - Fin 0.5) * spread)%num).

(** The slot of a new particle.  [activeCopy] is the local [activeParticles]
    of [animate]: the copy of the counter taken when the frame destructured
    the system.  The test and the index use the copy; the increment goes to
    the counter of the system. *)
Definition chooseSlot (activeCopy : Z) (sys : ParticleSystem)
  : Rand (Z * ParticleSystem) :=
  if (activeCopy <? MAX_PARTICLES)%Z then
    ret (activeCopy, mkSystem (particles sys) (activeParticles sys + 1))
  else
    let* u := random in
    ret (Qfloor (u * inject_Z MAX_PARTICLES), sys).

(** One emitted particle.  The two emission blocks of [animate] are this
    code with different constants: the spread of the position, the base and
    the range of the speed, and the color.  The direction of the velocity
    is read back from the position just written; at an index outside the
    buffers the three writes are ignored, so what is read there does not
    matter. *)
Definition emitParticle (spread speedBase speedRange : num) (col : Vector3)
    (io : Vector3) (activeCopy : Z) (sys : ParticleSystem)
  : Rand ParticleSystem :=
  let* (particleIndex, sys) := chooseSlot activeCopy sys in
  let* pos := jitter io spread in
  let radialDir := THREE.normalize pos in
  let* u := random in
  let speed := (speedBase + ofQ u * speedRange)%num in
  let vel := THREE.multiplyScalar radialDir speed in
  ret (mkSystem
         (writeSlot particleIndex (mkParticle pos vel col) (particles sys))
         (activeParticles sys)).

Definition eruptionColor : Vector3 := vfin 1.0 0.7 0.3.
Definition backgroundColor : Vector3 := vfin 1.0 0.5 0.2.

Definition emitEruptionParticle :=
  emitParticle (Fin 1.2) (Fin 0.04) (Fin 0.02) eruptionColor.

Definition emitBackgroundParticle :=
  emitParticle (Fin 0.8) (Fin 0.02) (Fin 0.01) backgroundColor.

(** [for (let e = 0; e < n; e++) if (Math.random () < 0.8) { ... }] *)
Fixpoint eruptionLoop (n : nat) (io : Vector3) (activeCopy : Z)
    (sys : ParticleSystem) : Rand ParticleSystem :=
  match n with
  | O => ret sys
  | S n' =>
      let* u := random in
      let* sys :=
        (if Qltb u (8 # 10)
         then emitEruptionParticle io activeCopy sys
         else ret sys) in
      eruptionLoop n' io activeCopy sys
  end.

(** The eruption state machine and the emission of one frame. *)
Definition emission (io : Vector3) (activeCopy : Z) (er : Eruption)
    (sys : ParticleSystem) : Rand (Eruption * ParticleSystem) :=
  if isActive er then
    let er := mkEruption (isActive er) (countdown er - 1) (cooldown er) in
    let er :=
      if (countdown er <=? 0)%Z
      then mkEruption false (countdown er) ERUPTION_COOLDOWN
      else er in
    let* sys :=
      eruptionLoop PARTICLES_PER_FRAME_DURING_ERUPTION io activeCopy sys in
    ret (er, sys)
  else if (0 <? cooldown er)%Z then
    ret (mkEruption (isActive er) (countdown er) (cooldown er - 1), sys)
  else
    let* u := random in
    if Qltb u ERUPTION_CHANCE then
      ret (mkEruption true ERUPTION_DURATION (cooldown er), sys)
    else
      let* u := random in
      if Qltb u BASE_EMISSION_RATE then
        let* sys := emitBackgroundParticle io activeCopy sys in
        ret (er, sys)
      else ret (er, sys).

(** ** The update of one particle *)

(** The reset of an invalid particle: back to Io, at rest, color kept. *)
Definition resetToIo (io : Vector3) (p : Particle) : Particle :=
  mkParticle io zero3 (color p).

(** The forces of one frame on a particle at [pos] with velocity [vel]:
    the magnetic force, the corotation, the radial and the vertical
    containment, each added unless it is NaN. *)
Definition accelerate (pos vel : Vector3) (distance jupiterRotation : num)
  : Vector3 :=
  let B := getMagneticFieldVector pos jupiterRotation in
  let force := THREE.cross vel B in
  let vel :=
    if negb (isNaN (THREE.length force)) then THREE.add vel force else vel in
  let corotationSpeed :=
    (JUPITER_ROTATION_SPEED
     * (Fin 1.0 - nexp (- THREE.length pos / Fin 15)))%num in
  let corotation :=
    THREE.multiplyScalar
      (THREE.normalize (V3 (- vz pos)%num (Fin 0) (vx pos)))
      corotationSpeed in
  let vel :=
    if negb (isNaN (THREE.length corotation))
    then THREE.add vel corotation else vel in
  let idealRadius := TORUS_RADIUS in
  let radialForce := THREE.normalize pos in
  let radialStrength :=
    if ngt distance idealRadius
    then (Fin (-0.01) * (distance - idealRadius))%num
    else (Fin 0.01 * (idealRadius - distance))%num in
  let vel :=
    if negb (isNaN radialStrength)
    then THREE.add vel (THREE.multiplyScalar radialForce radialStrength)
    else vel in
  let vel := V3 (vx vel) (vy vel * Fin 0.95)%num (vz vel) in
  let heightForce := V3 (Fin 0) (- vy pos * Fin 0.02)%num (Fin 0) in
  THREE.add vel heightForce.

(** [if (currentSpeed > maxSpeed) velocity.multiplyScalar (maxSpeed /
    currentSpeed)] *)
Definition limitSpeed (vel : Vector3) : Vector3 :=
  let maxSpeed := Fin 0.2 in
  let currentSpeed := THREE.length vel in
  if ngt currentSpeed maxSpeed
  then THREE.multiplyScalar vel (maxSpeed / currentSpeed)%num
  else vel.

(** The color of a particle at [pos], from its distance to Io. *)
Definition ionizationColor (pos io : Vector3) : Vector3 :=
  let distanceFromIo := THREE.length (THREE.sub pos io) in
  let ionization := nmin (Fin 1.0) (distanceFromIo / Fin 5.0)%num in
  V3 (nmax (Fin 0.2) (Fin 1.0 - ionization)%num)
     (Fin 0.3 + ionization * Fin 0.2)%num
     (Fin 0.2 + ionization * Fin 0.8)%num.

(** The body of the update loop on the values of one slot. *)
Definition updateParticle (io : Vector3) (jupiterRotation : num)
    (p : Particle) : Rand Particle :=
  let pos := position p in
  if isNaN (vx pos) || isNaN (vy pos) || isNaN (vz pos) then
    ret (resetToIo io p)
  else
    let distance := THREE.length pos in
    if ngt distance MAX_DISTANCE || nlt distance MIN_DISTANCE then
      let* newPos := jitter io (Fin 0.8) in
      ret (mkParticle newPos zero3 (color p))
    else
      let vel := accelerate pos (velocity p) distance jupiterRotation in
      let vel := limitSpeed vel in
      if negb (isNaN (THREE.length vel)) then
        let newPos := THREE.add pos vel in
        ret (mkParticle newPos vel (ionizationColor newPos io))
      else
        ret (resetToIo io p).

(** The body of the update loop at index [i]: the slot is read, updated and
    written back.  Past the end of the buffers the reads give [undefined],
    [isNaN] holds, and the writes of the reset are ignored. *)
Definition updateSlot (io : Vector3) (jupiterRotation : num) (i : nat)
    (ps : list Particle) : Rand (list Particle) :=
  match ps !! i with
  | None => ret ps
  | Some p =>
      let* p' := updateParticle io jupiterRotation p in
      ret (<[i := p']> ps)
  end.

(** [n] iterations of the update loop from index [i]. *)
Fixpoint updateLoop (io : Vector3) (jupiterRotation : num) (n i : nat)
    (ps : list Particle) : Rand (list Particle) :=
  match n with
  | O => ret ps
  | S n' =>
      let* ps := updateSlot io jupiterRotation i ps in
      updateLoop io jupiterRotation n' (S i) ps
  end.

(** ** One frame *)

(** The particle part of [animate], for the position [io] of the moon and
    the rotation of the planet in this frame. *)
Definition tick (io : Vector3) (jupiterRotation : num) (er : Eruption)
    (sys : ParticleSystem) : Rand (Eruption * ParticleSystem) :=
  let activeCopy := activeParticles sys in
  let* (er, sys) := emission io activeCopy er sys in
  let numParticlesToUpdate := Z.max MAX_PARTICLES activeCopy in
  let* ps :=
    updateLoop io jupiterRotation (Z.to_nat numParticlesToUpdate) 0
      (particles sys) in
  ret (er, mkSystem ps (activeParticles sys)).

(** The position of Io at frame counter [angle]; [y] is never assigned. *)
Definition ioPosition (angle : num) : Vector3 :=
  V3 (MOONS_IO_ORBIT_RADIUS * ncos (angle * MOONS_IO_ORBIT_SPEED))%num
     (Fin 0)
     (MOONS_IO_ORBIT_RADIUS * nsin (angle * MOONS_IO_ORBIT_SPEED))%num.

Definition animate (s : State) : Rand State :=
  let rot := (jupiterRotationY s + JUPITER_ROTATION_SPEED)%num in
  let io := ioPosition (angle s) in
  let angle := (angle s + Fin 1)%num in
  let* (er, sys) := tick io rot (eruption s) (particleSystem s) in
  ret (mkState rot angle er sys).

(** One frame with the draws [rng], read from the first. *)
Definition frame (rng : nat -> Q) (s : State) : State :=
  fst (animate s rng O).

(** [n] frames; frame [t] reads the draws [draws t]. *)
Fixpoint run (n : nat) (draws : nat -> nat -> Q) (s : State) : State :=
  match n with
  | O => s
  | S n' => frame (draws n') (run n' draws s)
  end.

(** ** The field lines *)

Definition NUM_FIELD_LINES : nat := 16.
Definition FIELD_LINE_POINTS : nat := 50.
Definition FIELD_LINE_LENGTH : num := Fin 20.

(** A loop counter as a number. *)
Definition ofNat (n : nat) : num := Fin (INR n).

(** The point number [j] of the field line number [i]: the body of the
    inner loop of [createFieldLines]. *)
Definition fieldLinePoint (i j : nat) : Vector3 :=
  let angle := (ofNat i / ofNat NUM_FIELD_LINES * Fin PI * Fin 2)%num in
  let startRadius := Fin 1.0 in
  let t := (ofNat j / (ofNat FIELD_LINE_POINTS - Fin 1))%num in
  let radius := (startRadius + t * FIELD_LINE_LENGTH)%num in
  let theta := angle in
  let phi :=
    (Fin PI / Fin 2 - (Fin PI - MAGNETIC_TILT) * ncos (t * Fin PI))%num in
  V3 (radius * nsin phi * ncos theta)%num
     (radius * ncos phi)%num
     (radius * nsin phi * nsin theta)%num.

(** [new THREE.Vector3 (p.x, -p.y, p.z)] *)
Definition mirrorPoint (p : Vector3) : Vector3 :=
  V3 (vx p) (- vy p)%num (vz p).

(** [createFieldLines]; a line is kept as the list of the points of its
    geometry.  The lines that were there are dropped, then each turn of the
    loop pushes a line and its mirror image. *)
Definition createFieldLines (fieldLines : list (list Vector3))
  : list (list Vector3) :=
  let fieldLines : list (list Vector3) := [] in
  fold_left
    (fun fieldLines i =>
       let points := map (fieldLinePoint i) (seq 0 FIELD_LINE_POINTS) in
       let mirroredPoints := map mirrorPoint points in
       fieldLines ++ [points; mirroredPoints])
    (seq 0 NUM_FIELD_LINES) fieldLines.

(** * Definitions used by the statements *)

(** ** Predicates on numbers, vectors and particles *)

Definition is_inf (a : num) : Prop :=
  match a with PInf | NInf => True | _ => False end.

Definition no_nan (v : Vector3) : Prop :=
  isNaN (vx v) = false /\ isNaN (vy v) = false /\ isNaN (vz v) = false.

Definition has_inf (v : Vector3) : Prop :=
  is_inf (vx v) \/ is_inf (vy v) \/ is_inf (vz v).

Definition finite_particle (p : Particle) : Prop :=
  finite_vec (position p) /\ finite_vec (velocity p).

(** A color channel in the interval [0, 1]. *)
Definition in_unit (a : num) : Prop :=
  match a with Fin r => 0 <= r <= 1 | _ => False end.

Definition color_ok (c : Vector3) : Prop :=
  in_unit (vx c) /\ in_unit (vy c) /\ in_unit (vz c).

Definition colored (p : Particle) : Prop := color_ok (color p).

Definition nan3 : Vector3 := V3 NaN NaN NaN.

(** The opposite vector. *)
Definition vneg (v : Vector3) : Vector3 :=
  V3 (- vx v)%num (- vy v)%num (- vz v)%num.

(** ** The eruption state and the counter of a run *)

(** Two results of the emission with the same counter and the same number
    of draws read. *)
Definition sameCount (r1 r2 : ParticleSystem * nat) : Prop :=
  activeParticles (fst r1) = activeParticles (fst r2) /\ snd r1 = snd r2.

Definition controlOf (s : State) : Eruption * Z :=
  (eruption s, activeParticles (particleSystem s)).

(** The eruption state and the counter after a frame: the emission of the
    frame run on a system without buffers, where it can be evaluated. *)
Definition controlFrame (rng : nat -> Q) (c : Eruption * Z) : Eruption * Z :=
  let r := fst (emission zero3 (snd c) (fst c) (mkSystem [] (snd c)) rng O) in
  (fst r, activeParticles (snd r)).

Fixpoint controlRun (n : nat) (draws : nat -> nat -> Q) (c : Eruption * Z)
  : Eruption * Z :=
  match n with
  | O => c
  | S n' => controlFrame (draws n') (controlRun n' draws c)
  end.

(** The eruption state after a frame, as a function of the state before and
    of the first draw of the frame. *)
Definition advanceEruption (roll : Q) (er : Eruption) : Eruption :=
  if isActive er then
    if (countdown er - 1 <=? 0)%Z
    then mkEruption false (countdown er - 1) ERUPTION_COOLDOWN
    else mkEruption true (countdown er - 1) (cooldown er)
  else if (0 <? cooldown er)%Z then
    mkEruption false (countdown er) (cooldown er - 1)
  else if Qltb roll ERUPTION_CHANCE then
    mkEruption true ERUPTION_DURATION (cooldown er)
  else er.

(** ** Inputs of the examples *)

(** Draws for a run that passes the capacity: four frames of background
    emission, then only zeros (every roll succeeds). *)
Definition overflowDraws (t k : nat) : Q :=
  if (t <? 4)%nat then 1 # 20 else 0.

(** A state in the frame that entered an eruption. *)
Definition eruptingState : State :=
  mkState (Fin 0) (Fin 0) (mkEruption true ERUPTION_DURATION 0) initialSystem.

(** A state ready to erupt. *)
Definition readyState : State :=
  mkState (Fin 0) (Fin 0) initialEruption initialSystem.

(** ** The dipole formula *)

(** The middle of [getMagneticFieldVector]: the dipole formula between the
    two changes of frame. *)
Definition dipoleField (magneticPos : Vector3) : Vector3 :=
  let r := THREE.length magneticPos in
  let r2 := (r * r)%num in
  let r5 := (r2 * r2 * r)%num in
  let m := axisY in
  let mDotR := THREE.dot m magneticPos in
  let field := THREE.multiplyScalar magneticPos (Fin 3 * mDotR)%num in
  let field := THREE.sub field (THREE.multiplyScalar m r2) in
  THREE.divideScalar field r5.

(** The formula in the words of the specification:
    [B = (3 (m . r) r - m r^2) / r^5], with [m] the unit vector of the y
    axis and, for the scalar [r], the Euclidean norm of the vector [r]. *)
Definition specDipole (r : Vector3) : Vector3 :=
  let m := axisY in
  let norm := THREE.length r in
  let numerator :=
    THREE.sub (THREE.multiplyScalar r (Fin 3 * THREE.dot m r)%num)
              (THREE.multiplyScalar m (norm * norm)%num) in
  let r5 := (norm * norm * norm * norm * norm)%num in
  V3 (vx numerator / r5)%num (vy numerator / r5)%num (vz numerator / r5)%num.

(** The field in the words of the specification: the position turned by the
    tilt about x and then by minus the rotation angle about y; the dipole
    formula; the result turned back by plus the rotation angle about y and
    then by minus the tilt about x; the whole scaled by the field
    strength. *)
Definition fieldAt_spec (p : Vector3) (rotationAngle : num) : Vector3 :=
  let r :=
    THREE.applyAxisAngle (THREE.applyAxisAngle p axisX MAGNETIC_TILT)
      axisY (- rotationAngle)%num in
  let B := specDipole r in
  let B := THREE.applyAxisAngle B axisY rotationAngle in
  let B := THREE.applyAxisAngle B axisX (- MAGNETIC_TILT)%num in
  THREE.multiplyScalar B MAGNETIC_FIELD_STRENGTH.

(** ** Predicates and inputs of the further properties *)

(** The states of the machine that a run reaches: erupting with a countdown
    from 1 to the duration and no cooldown, or idle with no countdown and a
    cooldown from 0 to its full length. *)
Definition eruption_ok (er : Eruption) : Prop :=
  if isActive er
  then (1 <= countdown er <= ERUPTION_DURATION)%Z /\ cooldown er = 0%Z
  else countdown er = 0%Z /\ (0 <= cooldown er <= ERUPTION_COOLDOWN)%Z.


(** A state whose counter is at the capacity. *)
Definition saturatedState : State :=
  mkState (Fin 0) (Fin 0) initialEruption
    (mkSystem (particles initialSystem) MAX_PARTICLES).

Definition speed_ok (p : Particle) : Prop :=
  exists r : R, THREE.length (velocity p) = Fin r /\ 0 <= r <= 0.2.

Definition contained (p : Particle) : Prop :=
  exists r : R, THREE.length (position p) = Fin r /\ 2.8 <= r <= 30.2.


(** Draws of a frame of background emission. *)
Definition backgroundDraws (i : nat) : Q :=
  match i with O => 1 # 2 | _ => 0 end.

(** The distance from the origin of the point number [j] of a line. *)
Definition fieldLineRadius (j : nat) : R := 1 + 20 * INR j / 49.

(** * Properties *)

(** ** The random-draw monad *)

Lemma bind_eq {A B : Type} (m : Rand A) (f : A -> Rand B) rng k :
  bind m f rng k = f (fst (m rng k)) rng (snd (m rng k)).
Proof. unfold bind. destruct (m rng k); reflexivity. Qed.

Lemma jitter_eq source spread rng k :
  jitter source spread rng k =
    (V3 (vx source + (ofQ (rng k) - Fin 0.5) * spread)%num
        (vy source + (ofQ (rng (S k)) - Fin 0.5) * spread)%num
        (vz source + (ofQ (rng (S (S k))) - Fin 0.5) * spread)%num,
     S (S (S k))).
Proof. reflexivity. Qed.

(** ** Emission: the counter and the cursor *)

(** What one emitted particle is, where it goes, and what it does to the
    counter and to the cursor. *)
Lemma emitParticle_eq spread speedBase speedRange col io activeCopy sys rng k :
  emitParticle spread speedBase speedRange col io activeCopy sys rng k =
    let grow := (activeCopy <? MAX_PARTICLES)%Z in
    let k0 := if grow then k else S k in
    let particleIndex :=
      if grow then activeCopy
      else Qfloor (rng k * inject_Z MAX_PARTICLES) in
    let pos := fst (jitter io spread rng k0) in
    let speed := (speedBase + ofQ (rng (S (S (S k0)))) * speedRange)%num in
    let vel := THREE.multiplyScalar (THREE.normalize pos) speed in
    (mkSystem
       (writeSlot particleIndex (mkParticle pos vel col) (particles sys))
       (if grow then activeParticles sys + 1 else activeParticles sys)%Z,
     S (S (S (S k0)))).
Proof.
  unfold emitParticle, chooseSlot.
  destruct (activeCopy <? MAX_PARTICLES)%Z; reflexivity.
Qed.

Lemma eruptionLoop_sameCount n io io' activeCopy rng :
  forall sys sys' k,
    activeParticles sys = activeParticles sys' ->
    sameCount (eruptionLoop n io activeCopy sys rng k)
              (eruptionLoop n io' activeCopy sys' rng k).
Proof.
  induction n as [|n IH]; intros sys sys' k Hc.
  - split; [exact Hc | reflexivity].
  - cbn [eruptionLoop]. rewrite ?bind_eq. cbn [random fst snd].
    destruct (Qltb (rng k) (8 # 10)).
    + rewrite ?bind_eq. unfold emitEruptionParticle.
      rewrite !emitParticle_eq. cbn [fst snd].
      apply IH. cbn [activeParticles]. rewrite Hc. reflexivity.
    + rewrite ?bind_eq. cbn [ret fst snd]. apply IH, Hc.
Qed.

Lemma emission_sameCount io io' activeCopy er sys sys' rng k :
  activeParticles sys = activeParticles sys' ->
  fst (fst (emission io activeCopy er sys rng k)) =
    fst (fst (emission io' activeCopy er sys' rng k)) /\
  activeParticles (snd (fst (emission io activeCopy er sys rng k))) =
    activeParticles (snd (fst (emission io' activeCopy er sys' rng k))) /\
  snd (emission io activeCopy er sys rng k) =
    snd (emission io' activeCopy er sys' rng k).
Proof.
  intros Hc. unfold emission.
  destruct (isActive er).
  - rewrite ?bind_eq. cbn [ret fst snd].
    destruct (eruptionLoop_sameCount PARTICLES_PER_FRAME_DURING_ERUPTION
                io io' activeCopy rng sys sys' k Hc) as [H1 H2].
    auto.
  - destruct (0 <? cooldown er)%Z; [cbn; auto|].
    rewrite ?bind_eq. cbn [random fst snd].
    destruct (Qltb (rng k) ERUPTION_CHANCE); [cbn; auto|].
    rewrite ?bind_eq. cbn [random fst snd].
    destruct (Qltb (rng (S k)) BASE_EMISSION_RATE); [|cbn; auto].
    rewrite ?bind_eq. unfold emitBackgroundParticle.
    rewrite !emitParticle_eq. cbn [ret fst snd activeParticles].
    rewrite Hc. auto.
Qed.

(** The update loop leaves the counter alone: a frame changes the eruption
    state and the counter as its emission does. *)
Lemma tick_control io rot er sys rng k :
  fst (fst (tick io rot er sys rng k)) =
    fst (fst (emission io (activeParticles sys) er sys rng k)) /\
  activeParticles (snd (fst (tick io rot er sys rng k))) =
    activeParticles
      (snd (fst (emission io (activeParticles sys) er sys rng k))).
Proof.
  unfold tick. rewrite bind_eq.
  destruct (emission io (activeParticles sys) er sys rng k) as [[er' sys'] k'].
  cbn [fst snd]. rewrite bind_eq. cbn. auto.
Qed.

Lemma frame_control rng s :
  controlOf (frame rng s) = controlFrame rng (controlOf s).
Proof.
  unfold controlOf, frame, animate, controlFrame.
  rewrite bind_eq.
  set (io := ioPosition (angle s)).
  set (rot := (jupiterRotationY s + JUPITER_ROTATION_SPEED)%num).
  destruct (tick_control io rot (eruption s) (particleSystem s) rng O)
    as [He Ha].
  destruct (tick io rot (eruption s) (particleSystem s) rng O)
    as [[er' sys'] k'].
  cbn [fst snd eruption particleSystem ret] in *.
  destruct (emission_sameCount io zero3 (activeParticles (particleSystem s))
              (eruption s) (particleSystem s)
              (mkSystem [] (activeParticles (particleSystem s))) rng O
              eq_refl) as (H1 & H2 & _).
  rewrite He, Ha, H1, H2. reflexivity.
Qed.

Lemma run_control n draws s :
  controlOf (run n draws s) = controlRun n draws (controlOf s).
Proof.
  induction n as [|n IH]; [reflexivity|].
  cbn [run controlRun]. rewrite frame_control, IH. reflexivity.
Qed.

Lemma run_activeParticles n draws s :
  activeParticles (particleSystem (run n draws s))
  = snd (controlRun n draws (eruption s, activeParticles (particleSystem s))).
Proof.
  change (eruption s, activeParticles (particleSystem s)) with (controlOf s).
  rewrite <- (run_control n draws s). reflexivity.
Qed.

(** The counter never decreases, grows by at most the number of attempts,
    and stays put once the copy taken at the start of the frame has reached
    the capacity. *)
Lemma eruptionLoop_count n io activeCopy rng :
  forall sys k,
    let a' := activeParticles (fst (eruptionLoop n io activeCopy sys rng k)) in
    (activeParticles sys <= a' <= activeParticles sys + Z.of_nat n)%Z /\
    ((MAX_PARTICLES <= activeCopy)%Z -> a' = activeParticles sys).
Proof.
  induction n as [|n IH]; intros sys k; cbn zeta.
  - cbn [eruptionLoop ret fst]. lia.
  - cbn [eruptionLoop]. rewrite ?bind_eq. cbn [random fst snd].
    destruct (Qltb (rng k) (8 # 10)).
    + rewrite ?bind_eq. unfold emitEruptionParticle.
      rewrite emitParticle_eq. cbn zeta. cbn [fst snd].
      match goal with
      | |- context [eruptionLoop n io activeCopy ?s rng ?c] =>
          specialize (IH s c)
      end.
      cbn zeta in IH. cbn [activeParticles] in IH.
      destruct (Z.ltb_spec activeCopy MAX_PARTICLES); lia.
    + rewrite ?bind_eq. cbn [ret fst snd].
      specialize (IH sys (S k)). cbn zeta in IH. lia.
Qed.

Lemma emission_count io activeCopy er sys rng k :
  let a' := activeParticles (snd (fst (emission io activeCopy er sys rng k))) in
  (activeParticles sys <= a' <= activeParticles sys + 5)%Z /\
  ((MAX_PARTICLES <= activeCopy)%Z -> a' = activeParticles sys).
Proof.
  cbn zeta. unfold emission.
  destruct (isActive er).
  - rewrite ?bind_eq. cbn [ret fst snd].
    pose proof (eruptionLoop_count PARTICLES_PER_FRAME_DURING_ERUPTION io
                  activeCopy rng sys k) as H.
    cbn zeta in H. unfold PARTICLES_PER_FRAME_DURING_ERUPTION in *. lia.
  - destruct (0 <? cooldown er)%Z; [cbn; lia|].
    rewrite ?bind_eq. cbn [random fst snd].
    destruct (Qltb (rng k) ERUPTION_CHANCE); [cbn; lia|].
    rewrite ?bind_eq. cbn [random fst snd].
    destruct (Qltb (rng (S k)) BASE_EMISSION_RATE); [|cbn; lia].
    rewrite ?bind_eq. unfold emitBackgroundParticle.
    rewrite emitParticle_eq. cbn [ret fst snd activeParticles].
    destruct (Z.ltb_spec activeCopy MAX_PARTICLES); lia.
Qed.

Lemma frame_count rng s :
  let a := activeParticles (particleSystem s) in
  let a' := activeParticles (particleSystem (frame rng s)) in
  (a <= a' <= a + 5)%Z /\ ((MAX_PARTICLES <= a)%Z -> a' = a).
Proof.
  cbn zeta.
  pose proof (f_equal snd (frame_control rng s)) as H.
  unfold controlOf, controlFrame in H. cbn [fst snd] in H. rewrite H.
  pose proof (emission_count zero3 (activeParticles (particleSystem s))
                (eruption s)
                (mkSystem [] (activeParticles (particleSystem s))) rng O) as E.
  cbn zeta in E. cbn [activeParticles] in E. exact E.
Qed.

(** The part of the growth claim that holds: the counter is non-decreasing
    along every run. *)
Lemma activeParticles_monotone n draws s :
  (activeParticles (particleSystem (run n draws s))
   <= activeParticles (particleSystem (run (S n) draws s)))%Z.
Proof.
  cbn [run]. pose proof (frame_count (draws n) (run n draws s)) as H.
  cbn zeta in H. lia.
Qed.

(** What bounds the counter instead of the capacity: the five attempts of
    a frame all pass the test on the stale copy. *)
Lemma activeParticles_bound n draws :
  (activeParticles (particleSystem (run n draws initialState))
   <= MAX_PARTICLES + 4)%Z.
Proof.
  induction n as [|n IH]; [cbn; unfold MAX_PARTICLES; lia|].
  cbn [run].
  pose proof (frame_count (draws n) (run n draws initialState)) as H.
  cbn zeta in H. lia.
Qed.

Lemma overflowDraws_in_range t k :
  (0 <= overflowDraws t k)%Q /\ (overflowDraws t k < 1)%Q.
Proof.
  unfold overflowDraws.
  destruct (t <? 4)%nat;
    (split; [apply Qle_bool_imp_le; reflexivity | reflexivity]).
Qed.

(** C1 (growth monotonicity), the half that fails: from the initial system
    and with draws in [0, 1), the counter is 1004 after 406 frames, above
    the capacity of 1000. *)
Theorem activeParticles_exceeds_capacity :
  activeParticles (particleSystem (run 406 overflowDraws initialState))
    = 1004%Z /\
  (MAX_PARTICLES
   < activeParticles (particleSystem (run 406 overflowDraws initialState)))%Z.
Proof.
  rewrite run_activeParticles.
  change (activeParticles (particleSystem initialState)) with 0%Z.
  change (eruption initialState) with initialEruption.
  split; vm_compute; reflexivity.
Qed.

(** ** The eruption state machine *)

Lemma emission_eruption io activeCopy er sys rng k :
  fst (fst (emission io activeCopy er sys rng k)) = advanceEruption (rng k) er.
Proof.
  unfold emission, advanceEruption.
  destruct er as [[|] cd cl]; cbn [isActive countdown cooldown].
  - rewrite bind_eq. cbn [ret fst snd].
    destruct (cd - 1 <=? 0)%Z; reflexivity.
  - destruct (0 <? cl)%Z; [reflexivity|].
    rewrite bind_eq. cbn [random fst snd].
    destruct (Qltb (rng k) ERUPTION_CHANCE); [reflexivity|].
    rewrite bind_eq. cbn [random fst snd].
    destruct (Qltb (rng (S k)) BASE_EMISSION_RATE);
      [rewrite bind_eq|]; reflexivity.
Qed.

Lemma frame_eruption rng s :
  eruption (frame rng s) = advanceEruption (rng O) (eruption s).
Proof.
  pose proof (f_equal fst (frame_control rng s)) as H.
  unfold controlOf, controlFrame in H. cbn [fst snd] in H.
  rewrite H. apply emission_eruption.
Qed.

Lemma run_S n draws s :
  run (S n) draws s = frame (draws n) (run n draws s).
Proof. reflexivity. Qed.

Lemma run_add n m draws s :
  run (n + m) draws s = run m (fun t => draws (n + t)%nat) (run n draws s).
Proof.
  induction m as [|m IH].
  - rewrite Nat.add_0_r. reflexivity.
  - rewrite Nat.add_succ_r. cbn [run]. rewrite IH. reflexivity.
Qed.

(** While the countdown has not run out the eruption goes on. *)
Lemma run_erupting k : forall draws s cd cl,
  eruption s = mkEruption true cd cl ->
  (Z.of_nat k < cd)%Z ->
  eruption (run k draws s) = mkEruption true (cd - Z.of_nat k) cl.
Proof.
  induction k as [|k IH]; intros draws s cd cl He Hk.
  - cbn [run]. rewrite He. f_equal. lia.
  - cbn [run]. rewrite frame_eruption.
    rewrite (IH draws s cd cl He) by lia.
    unfold advanceEruption. cbn [isActive countdown cooldown].
    destruct (Z.leb_spec (cd - Z.of_nat k - 1) 0); [lia|].
    f_equal. lia.
Qed.

(** During the cooldown no draw starts an eruption. *)
Lemma run_cooling j : forall draws s cd cl,
  eruption s = mkEruption false cd cl ->
  (Z.of_nat j <= cl)%Z ->
  eruption (run j draws s) = mkEruption false cd (cl - Z.of_nat j).
Proof.
  induction j as [|j IH]; intros draws s cd cl He Hj.
  - cbn [run]. rewrite He. f_equal. lia.
  - cbn [run]. rewrite frame_eruption.
    rewrite (IH draws s cd cl He) by lia.
    unfold advanceEruption. cbn [isActive countdown cooldown].
    destruct (Z.ltb_spec 0 (cl - Z.of_nat j)); [|lia].
    f_equal. lia.
Qed.

(** C3 (eruption timing): from the frame that entered an eruption, the
    eruption is still on after each of the first 99 frames, the frame number
    100 ends it and sets the cooldown to 200, the eruption is off after each
    of the next 200 frames whatever the draws, and the frame after those
    starts a new eruption exactly when its first draw is below the eruption
    chance. *)
Theorem eruption_timing (draws : nat -> nat -> Q) (s : State) :
  isActive (eruption s) = true ->
  countdown (eruption s) = ERUPTION_DURATION ->
  let D := Z.to_nat ERUPTION_DURATION in
  let C := Z.to_nat ERUPTION_COOLDOWN in
  (forall k, (k < D)%nat -> isActive (eruption (run k draws s)) = true) /\
  isActive (eruption (run D draws s)) = false /\
  cooldown (eruption (run D draws s)) = ERUPTION_COOLDOWN /\
  (forall j, (j <= C)%nat ->
     isActive (eruption (run (D + j) draws s)) = false /\
     cooldown (eruption (run (D + j) draws s))
       = (ERUPTION_COOLDOWN - Z.of_nat j)%Z) /\
  isActive (eruption (run (D + C + 1) draws s))
    = Qltb (draws (D + C)%nat O) ERUPTION_CHANCE /\
  (Qltb (draws (D + C)%nat O) ERUPTION_CHANCE = true ->
   countdown (eruption (run (D + C + 1) draws s)) = ERUPTION_DURATION).
Proof.
  intros Ha Hc D C.
  assert (ED : D = S 99) by reflexivity.
  assert (EC : Z.of_nat C = ERUPTION_COOLDOWN) by reflexivity.
  clearbody D C.
  destruct (eruption s) as [a cd cl] eqn:He.
  cbn [isActive countdown] in Ha, Hc. subst a cd.
  assert (HD : eruption (run D draws s)
               = mkEruption false 0 ERUPTION_COOLDOWN).
  { rewrite ED, run_S, frame_eruption.
    rewrite (run_erupting 99 draws s ERUPTION_DURATION cl He)
      by (unfold ERUPTION_DURATION; lia).
    reflexivity. }
  assert (HC : forall j, (j <= C)%nat ->
             eruption (run (D + j) draws s)
             = mkEruption false 0 (ERUPTION_COOLDOWN - Z.of_nat j)).
  { intros j Hj. rewrite run_add.
    apply run_cooling; [exact HD | lia]. }
  assert (HR : eruption (run (D + C + 1) draws s)
               = advanceEruption (draws (D + C)%nat O)
                   (mkEruption false 0 0)).
  { rewrite Nat.add_1_r, run_S, frame_eruption.
    rewrite (HC C (le_n C)), EC, Z.sub_diag. reflexivity. }
  split; [|split; [|split; [|split; [|split]]]].
  - intros k Hk.
    rewrite (run_erupting k draws s ERUPTION_DURATION cl He).
    + reflexivity.
    + unfold ERUPTION_DURATION. lia.
  - rewrite HD. reflexivity.
  - rewrite HD. reflexivity.
  - intros j Hj. rewrite (HC j Hj). split; reflexivity.
  - rewrite HR. unfold advanceEruption. cbn [isActive countdown cooldown].
    change (0 <? 0)%Z with false. cbv iota.
    destruct (Qltb (draws (D + C)%nat O) ERUPTION_CHANCE); reflexivity.
  - intros Hroll. rewrite HR.
    unfold advanceEruption. cbn [isActive countdown cooldown].
    change (0 <? 0)%Z with false. cbv iota.
    rewrite Hroll. reflexivity.
Qed.

Lemma eruption_timing_witness :
  isActive (eruption eruptingState) = true /\
  countdown (eruption eruptingState) = ERUPTION_DURATION /\
  isActive (eruption (run 100 (fun _ _ => 0%Q) eruptingState)) = false /\
  cooldown (eruption (run 100 (fun _ _ => 0%Q) eruptingState))
    = ERUPTION_COOLDOWN.
Proof.
  split; [reflexivity|]. split; [reflexivity|].
  pose proof (eruption_timing (fun _ _ => 0%Q) eruptingState
                eq_refl eq_refl) as H.
  cbv zeta in H. destruct H as (_ & H1 & H2 & _).
  split; [exact H1 | exact H2].
Defined.

(** ** The frame that starts an eruption *)

(** C10: in a frame that goes from ready (no eruption, cooldown 0) to
    erupting because the roll is below the eruption chance, the emission
    reads that one draw and returns the system as it was: no slot written,
    counter unchanged.  The frame ends erupting with the full countdown, and
    the emission of the following frame is the eruption loop. *)
Theorem eruption_start_emits_nothing (rng : nat -> Q) (s : State) :
  isActive (eruption s) = false ->
  cooldown (eruption s) = 0%Z ->
  Qltb (rng O) ERUPTION_CHANCE = true ->
  emission (ioPosition (angle s)) (activeParticles (particleSystem s))
    (eruption s) (particleSystem s) rng O
    = ((mkEruption true ERUPTION_DURATION 0, particleSystem s), 1%nat) /\
  activeParticles (particleSystem (frame rng s))
    = activeParticles (particleSystem s) /\
  eruption (frame rng s) = mkEruption true ERUPTION_DURATION 0 /\
  forall rng' : nat -> Q,
    let s' := frame rng s in
    let io' := ioPosition (angle s') in
    let copy' := activeParticles (particleSystem s') in
    fst (emission io' copy' (eruption s') (particleSystem s') rng' O)
    = (mkEruption true (ERUPTION_DURATION - 1) 0,
       fst (eruptionLoop PARTICLES_PER_FRAME_DURING_ERUPTION io' copy'
              (particleSystem s') rng' O)).
Proof.
  intros Ha Hc Hroll.
  assert (E : emission (ioPosition (angle s))
                (activeParticles (particleSystem s))
                (eruption s) (particleSystem s) rng O
              = ((mkEruption true ERUPTION_DURATION 0, particleSystem s),
                 1%nat)).
  { unfold emission. rewrite Ha, Hc. cbn [Z.ltb Z.compare].
    rewrite bind_eq. cbn [random fst snd]. rewrite Hroll. reflexivity. }
  assert (Er : eruption (frame rng s) = mkEruption true ERUPTION_DURATION 0).
  { rewrite frame_eruption. unfold advanceEruption.
    rewrite Ha, Hc, Hroll. reflexivity. }
  split; [exact E|]. split; [|split; [exact Er|]].
  - pose proof (f_equal snd (frame_control rng s)) as H.
    unfold controlOf, controlFrame in H. cbn [fst snd] in H. rewrite H.
    destruct (emission_sameCount zero3 (ioPosition (angle s))
                (activeParticles (particleSystem s)) (eruption s)
                (mkSystem [] (activeParticles (particleSystem s)))
                (particleSystem s) rng O eq_refl) as (_ & H2 & _).
    rewrite H2, E. reflexivity.
  - intros rng'. cbn zeta. rewrite Er. unfold emission.
    cbn [isActive countdown cooldown]. rewrite bind_eq. reflexivity.
Qed.

Lemma eruption_start_emits_nothing_witness :
  isActive (eruption readyState) = false /\
  cooldown (eruption readyState) = 0%Z /\
  Qltb 0 ERUPTION_CHANCE = true /\
  activeParticles (particleSystem (frame (fun _ => 0%Q) readyState))
    = activeParticles (particleSystem readyState).
Proof.
  split; [reflexivity|]. split; [reflexivity|]. split; [reflexivity|].
  exact (proj1 (proj2 (eruption_start_emits_nothing (fun _ => 0%Q) readyState
                         eq_refl eq_refl eq_refl))).
Defined.

(** ** Where the emitted particles go *)

Lemma writeSlot_lookup_ne (i : Z) (j : nat) (p : Particle)
    (ps : list Particle) :
  j <> Z.to_nat i -> writeSlot i p ps !! j = ps !! j.
Proof.
  intros Hj. unfold writeSlot. destruct (0 <=? i)%Z; [|reflexivity].
  apply list_lookup_insert_ne. congruence.
Qed.

Lemma writeSlot_length (i : Z) (p : Particle) (ps : list Particle) :
  length (writeSlot i p ps) = length ps.
Proof.
  unfold writeSlot. destruct (0 <=? i)%Z; [apply length_insert|reflexivity].
Qed.

(** The slot drawn at saturation is a slot of the buffers. *)
Lemma randomSlot_in_range (u : Q) :
  (0 <= u)%Q -> (u < 1)%Q ->
  (0 <= Qfloor (u * inject_Z MAX_PARTICLES) < MAX_PARTICLES)%Z.
Proof.
  intros H0 H1. unfold MAX_PARTICLES. split.
  - change 0%Z with (Qfloor 0). apply Qfloor_resp_le.
    apply Qmult_le_0_compat; [exact H0 | discriminate].
  - assert (Hlt : (u * inject_Z 1000 < inject_Z 1000)%Q).
    { rewrite <- (Qmult_1_l (inject_Z 1000)) at 2.
      apply Qmult_lt_compat_r; [reflexivity | exact H1]. }
    pose proof (Qfloor_le (u * inject_Z 1000)) as Hf.
    rewrite Zlt_Qlt. eapply Qle_lt_trans; eassumption.
Qed.

(** The first spawn of a frame, when the copy is the counter, follows the
    recycling policy: below the capacity the slot of the counter and an
    increment, from the capacity on a drawn slot and no increment. *)
Lemma emitParticle_first spread speedBase speedRange col io sys rng k :
  let sys' :=
    fst (emitParticle spread speedBase speedRange col io
           (activeParticles sys) sys rng k) in
  exists p : Particle,
    color p = col /\
    if (activeParticles sys <? MAX_PARTICLES)%Z then
      particles sys' = writeSlot (activeParticles sys) p (particles sys) /\
      activeParticles sys' = (activeParticles sys + 1)%Z
    else
      particles sys'
      = writeSlot (Qfloor (rng k * inject_Z MAX_PARTICLES)) p (particles sys)
      /\ activeParticles sys' = activeParticles sys.
Proof.
  cbn zeta. rewrite emitParticle_eq. cbn zeta. cbn [fst].
  destruct (activeParticles sys <? MAX_PARTICLES)%Z;
    (eexists; split; [|split; reflexivity]; reflexivity).
Qed.

(** While the copy of the counter is below the capacity, every particle of
    the eruption loop goes to the slot of that copy. *)
Lemma eruptionLoop_other_slots n io activeCopy rng (j : nat) :
  (activeCopy < MAX_PARTICLES)%Z ->
  j <> Z.to_nat activeCopy ->
  forall sys k,
    particles (fst (eruptionLoop n io activeCopy sys rng k)) !! j
    = particles sys !! j.
Proof.
  intros Hlt Hj. induction n as [|n IH]; intros sys k; [reflexivity|].
  cbn [eruptionLoop]. rewrite ?bind_eq. cbn [random fst snd].
  destruct (Qltb (rng k) (8 # 10)).
  - rewrite ?bind_eq. unfold emitEruptionParticle.
    rewrite emitParticle_eq. cbn zeta.
    apply Z.ltb_lt in Hlt. rewrite Hlt. cbn [fst snd].
    rewrite IH. cbn [particles]. apply writeSlot_lookup_ne, Hj.
  - rewrite ?bind_eq. cbn [ret fst snd]. apply IH.
Qed.

(** C2 (recycling policy), where it fails: an erupting frame on the initial
    system whose five attempts all succeed.  At the second attempt the
    counter is 1, below the capacity, yet the particle goes to slot 0 again:
    the counter ends at 5 and the slots 1 to 4 were never written.  Started
    at 999, the same frame takes the counter through the capacity to 1004
    with all five particles in slot 999. *)
Theorem eruption_spawns_share_slot (io : Vector3) :
  let sys' := fst (eruptionLoop PARTICLES_PER_FRAME_DURING_ERUPTION io 0
                     initialSystem (fun _ => 0%Q) O) in
  let sys'' := fst (eruptionLoop PARTICLES_PER_FRAME_DURING_ERUPTION io 999
                      (mkSystem (particles initialSystem) 999)
                      (fun _ => 0%Q) O) in
  activeParticles sys' = 5%Z /\
  (forall j : nat, (1 <= j)%nat ->
     particles sys' !! j = particles initialSystem !! j) /\
  activeParticles sys'' = 1004%Z /\
  (forall j : nat, j <> 999%nat ->
     particles sys'' !! j = particles initialSystem !! j).
Proof.
  cbn zeta. split; [|split; [|split]].
  - destruct (eruptionLoop_sameCount PARTICLES_PER_FRAME_DURING_ERUPTION
                io zero3 0 (fun _ => 0%Q) initialSystem (mkSystem [] 0) O
                eq_refl) as [H _].
    rewrite H. vm_compute. reflexivity.
  - intros j Hj. apply eruptionLoop_other_slots; [reflexivity|].
    change (Z.to_nat 0) with O. lia.
  - destruct (eruptionLoop_sameCount PARTICLES_PER_FRAME_DURING_ERUPTION
                io zero3 999 (fun _ => 0%Q)
                (mkSystem (particles initialSystem) 999)
                (mkSystem [] 999) O eq_refl) as [H _].
    rewrite H. vm_compute. reflexivity.
  - intros j Hj. rewrite eruptionLoop_other_slots; [reflexivity..|].
    change (Z.to_nat 999) with 999%nat. exact Hj.
Qed.

(** ** Numbers: comparisons and special values *)

Lemma Rltb_lt a b : Rltb a b = true <-> a < b.
Proof.
  unfold Rltb. destruct (Rlt_dec a b); split; intros; auto; discriminate.
Qed.

Lemma Rltb_ge a b : Rltb a b = false <-> b <= a.
Proof.
  unfold Rltb.
  destruct (Rlt_dec a b); split; intros; auto; try discriminate; lra.
Qed.

Lemma Reqb_eq a b : Reqb a b = true <-> a = b.
Proof.
  unfold Reqb. destruct (Req_dec_T a b); split; intros; auto; discriminate.
Qed.

Lemma Reqb_neq a b : Reqb a b = false <-> a <> b.
Proof.
  unfold Reqb. destruct (Req_dec_T a b); split; intros; auto; try discriminate.
  contradiction.
Qed.

Lemma Rltb_true a b : a < b -> Rltb a b = true.
Proof. apply Rltb_lt. Qed.

Lemma Rltb_false a b : b <= a -> Rltb a b = false.
Proof. apply Rltb_ge. Qed.

Lemma Reqb_false a b : a <> b -> Reqb a b = false.
Proof. apply Reqb_neq. Qed.

Lemma Reqb_refl a : Reqb a a = true.
Proof. apply Reqb_eq. reflexivity. Qed.

Lemma sumsq_nonneg a b c : 0 <= a * a + b * b + c * c.
Proof. nra. Qed.

Lemma nsqrt_sumsq a b c :
  nsqrt (Fin (a * a + b * b + c * c)) = Fin (sqrt (a * a + b * b + c * c)).
Proof.
  cbn [nsqrt]. rewrite Rltb_false by apply sumsq_nonneg. reflexivity.
Qed.

Ltac rw_sqrt :=
  match goal with
  | |- context [nsqrt (Fin (?a * ?a + ?b * ?b + ?c * ?c))] =>
      rewrite (nsqrt_sumsq a b c)
  end.

(** The length of a finite vector. *)
Lemma length_vfin a b c :
  THREE.length (vfin a b c) = Fin (sqrt (a * a + b * b + c * c)).
Proof.
  unfold THREE.length, vfin. cbn [vx vy vz nmul nadd]. apply nsqrt_sumsq.
Qed.

Ltac destruct_vec v :=
  let a := fresh "a" in let b := fresh "b" in let c := fresh "c" in
  destruct v as [[a| | |] [b| | |] [c| | |]].

(** The length is NaN exactly when a component is. *)
Lemma length_isNaN v :
  isNaN (THREE.length v) = isNaN (vx v) || isNaN (vy v) || isNaN (vz v).
Proof.
  destruct_vec v; unfold THREE.length; cbn [vx vy vz nmul nadd isNaN orb];
    try reflexivity.
  rw_sqrt. reflexivity.
Qed.

(** Without NaN, an infinite component makes the length infinite. *)
Lemma length_has_inf v : no_nan v -> has_inf v -> THREE.length v = PInf.
Proof.
  intros (Hx & Hy & Hz) Hi.
  destruct_vec v; cbn [vx vy vz isNaN] in *; try discriminate;
    try reflexivity.
  unfold has_inf in Hi. cbn in Hi. tauto.
Qed.

(** A finite length comes from finite components. *)
Lemma length_fin_inv v r : THREE.length v = Fin r -> finite_vec v.
Proof.
  destruct_vec v; unfold THREE.length, finite_vec;
    cbn [vx vy vz nmul nadd nsqrt is_finite]; intros H;
    solve [tauto | discriminate H].
Qed.

Lemma length_not_NInf v : THREE.length v <> NInf.
Proof.
  destruct_vec v; unfold THREE.length; cbn [vx vy vz nmul nadd];
    try discriminate.
  rw_sqrt. discriminate.
Qed.

Lemma finite_vec_vfin v : finite_vec v -> exists a b c, v = vfin a b c.
Proof.
  destruct_vec v; unfold finite_vec; cbn [vx vy vz is_finite]; try tauto.
  intros _. eauto.
Qed.

Lemma finite_vec_add v w :
  finite_vec v -> finite_vec w -> finite_vec (THREE.add v w).
Proof.
  intros (a & b & c & ->)%finite_vec_vfin (a' & b' & c' & ->)%finite_vec_vfin.
  repeat split.
Qed.

Lemma finite_vec_sub v w :
  finite_vec v -> finite_vec w -> finite_vec (THREE.sub v w).
Proof.
  intros (a & b & c & ->)%finite_vec_vfin (a' & b' & c' & ->)%finite_vec_vfin.
  repeat split.
Qed.

Lemma finite_zero3 : finite_vec zero3.
Proof. repeat split. Qed.

Lemma jitter_finite io spread rng k :
  finite_vec io -> finite_vec (fst (jitter io (Fin spread) rng k)).
Proof.
  intros (a & b & c & ->)%finite_vec_vfin. rewrite jitter_eq. repeat split.
Qed.

Create HintDb finite.

#[local] Hint Resolve finite_zero3 finite_vec_add finite_vec_sub
  jitter_finite : finite.

(** ** The guards of the update *)

(** Past the two guards the position is finite. *)
Lemma in_bounds_finite pos :
  isNaN (vx pos) || isNaN (vy pos) || isNaN (vz pos) = false ->
  ngt (THREE.length pos) MAX_DISTANCE || nlt (THREE.length pos) MIN_DISTANCE
    = false ->
  finite_vec pos.
Proof.
  intros Hn Hb.
  destruct (THREE.length pos) as [r| | |] eqn:E.
  - exact (length_fin_inv pos r E).
  - discriminate Hb.
  - destruct (length_not_NInf pos E).
  - rewrite <- length_isNaN, E in Hn. discriminate Hn.
Qed.

(** A limited velocity whose length is not NaN is finite. *)
Lemma limitSpeed_finite vel :
  isNaN (THREE.length (limitSpeed vel)) = false ->
  finite_vec (limitSpeed vel).
Proof.
  unfold limitSpeed. cbn zeta.
  destruct (THREE.length vel) as [r| | |] eqn:E.
  - pose proof (length_fin_inv vel r E) as (a & b & c & ->)%finite_vec_vfin.
    destruct (ngt (Fin r) (Fin 0.2)) eqn:G; intros _; [|repeat split].
    unfold ngt in G. cbn [nlt] in G. apply Rltb_lt in G.
    unfold THREE.multiplyScalar, vfin. cbn [vx vy vz ndiv].
    rewrite Reqb_false by lra. repeat split.
  - cbn [ngt nlt ndiv]. rewrite length_isNaN.
    destruct_vec vel; unfold THREE.multiplyScalar;
      cbn [vx vy vz nmul isNaN orb];
      rewrite ?Reqb_refl; cbn [isNaN orb];
      solve [discriminate | intros _; repeat split].
  - destruct (length_not_NInf vel E).
  - cbn [ngt nlt]. rewrite E. discriminate.
Qed.

(** ** One particle: finite values *)

(** Whatever the slot held and whatever the rotation, the updated slot is
    finite as soon as the position of Io is. *)
Lemma updateParticle_finite io rot p rng k :
  finite_vec io -> finite_particle (fst (updateParticle io rot p rng k)).
Proof.
  intros Hio. unfold updateParticle. cbn zeta.
  destruct (isNaN (vx (position p)) || isNaN (vy (position p))
            || isNaN (vz (position p))) eqn:Hnan.
  { split; cbn [ret fst resetToIo position velocity]; auto with finite. }
  destruct (ngt (THREE.length (position p)) MAX_DISTANCE
            || nlt (THREE.length (position p)) MIN_DISTANCE) eqn:Hb.
  { rewrite bind_eq.
    split; cbn [ret fst position velocity]; auto with finite. }
  set (vel := limitSpeed _).
  destruct (isNaN (THREE.length vel)) eqn:Hv; cbn [negb].
  { split; cbn [ret fst resetToIo position velocity]; auto with finite. }
  pose proof (limitSpeed_finite _ Hv) as Hfin. fold vel in Hfin.
  pose proof (in_bounds_finite _ Hnan Hb) as Hpos.
  split; cbn [ret fst position velocity]; auto with finite.
Qed.

(** ** One particle: the color *)

Lemma eruptionColor_ok : color_ok eruptionColor.
Proof. unfold color_ok, eruptionColor, vfin; cbn; lra. Qed.

Lemma backgroundColor_ok : color_ok backgroundColor.
Proof. unfold color_ok, backgroundColor, vfin; cbn; lra. Qed.

Lemma ionizationColor_ok pos io :
  finite_vec pos -> finite_vec io -> color_ok (ionizationColor pos io).
Proof.
  intros (a & b & c & ->)%finite_vec_vfin (a' & b' & c' & ->)%finite_vec_vfin.
  unfold ionizationColor, THREE.sub, vfin. cbn [vx vy vz nsub nneg nadd].
  cbn zeta. unfold THREE.length. cbn [vx vy vz nmul nadd]. rw_sqrt.
  set (d := sqrt _).
  assert (Hd : 0 <= d) by apply sqrt_pos.
  cbn [ndiv]. rewrite Reqb_false by lra.
  cbn [nmin nlt].
  destruct (Rltb (d / 5.0) 1.0) eqn:Hlt;
    [apply Rltb_lt in Hlt | apply Rltb_ge in Hlt];
    cbn [nsub nneg nadd nmul nmax nlt];
    match goal with
    | |- context [Rltb ?x ?y] =>
        destruct (Rltb x y) eqn:Hm;
        [apply Rltb_lt in Hm | apply Rltb_ge in Hm]
    end;
    unfold color_ok; cbn [vx vy vz in_unit]; lra.
Qed.

(** The update keeps the colors in range. *)
Lemma updateParticle_color io rot p rng k :
  finite_vec io -> color_ok (color p) ->
  color_ok (color (fst (updateParticle io rot p rng k))).
Proof.
  intros Hio Hc. unfold updateParticle. cbn zeta.
  destruct (isNaN (vx (position p)) || isNaN (vy (position p))
            || isNaN (vz (position p))) eqn:Hnan; [exact Hc|].
  destruct (ngt (THREE.length (position p)) MAX_DISTANCE
            || nlt (THREE.length (position p)) MIN_DISTANCE) eqn:Hb.
  { rewrite bind_eq. exact Hc. }
  set (vel := limitSpeed _).
  destruct (isNaN (THREE.length vel)) eqn:Hv; cbn [negb ret fst color];
    [exact Hc|].
  pose proof (limitSpeed_finite _ Hv) as Hfin. fold vel in Hfin.
  pose proof (in_bounds_finite _ Hnan Hb) as Hpos.
  apply ionizationColor_ok; auto with finite.
Qed.

(** ** The update loop *)

Section UpdateLoop.

Variables (io : Vector3) (rot : num).

Lemma updateSlot_eq i ps rng k :
  updateSlot io rot i ps rng k =
    match ps !! i with
    | None => (ps, k)
    | Some p =>
        (<[i := fst (updateParticle io rot p rng k)]> ps,
         snd (updateParticle io rot p rng k))
    end.
Proof.
  unfold updateSlot. destruct (ps !! i); [|reflexivity].
  rewrite bind_eq. reflexivity.
Qed.

Lemma updateSlot_length i ps rng k :
  length (fst (updateSlot io rot i ps rng k)) = length ps.
Proof.
  rewrite updateSlot_eq. destruct (ps !! i); [apply length_insert|reflexivity].
Qed.

Lemma updateLoop_length n : forall i ps rng k,
  length (fst (updateLoop io rot n i ps rng k)) = length ps.
Proof.
  induction n as [|n IH]; intros i ps rng k; [reflexivity|].
  cbn [updateLoop]. rewrite bind_eq, IH. apply updateSlot_length.
Qed.

(** A property that the update of a particle preserves is preserved by the
    loop. *)
Lemma updateLoop_preserves (P : Particle -> Prop) :
  (forall p rng k, P p -> P (fst (updateParticle io rot p rng k))) ->
  forall n i ps rng k,
    Forall P ps -> Forall P (fst (updateLoop io rot n i ps rng k)).
Proof.
  intros HP. induction n as [|n IH]; intros i ps rng k Hps; [exact Hps|].
  cbn [updateLoop]. rewrite bind_eq. apply IH.
  rewrite updateSlot_eq. destruct (ps !! i) as [p|] eqn:E; [|exact Hps].
  cbn [fst]. apply Forall_insert; [exact Hps|].
  apply HP. exact (Forall_lookup_1 P ps i p Hps E).
Qed.

(** A property that the update of a particle establishes holds, after the
    loop, of every slot the loop has walked. *)
Lemma updateLoop_establishes (P : Particle -> Prop) :
  (forall p rng k, P (fst (updateParticle io rot p rng k))) ->
  forall n i ps rng k,
    (forall j p, (j < i)%nat -> ps !! j = Some p -> P p) ->
    (length ps <= i + n)%nat ->
    Forall P (fst (updateLoop io rot n i ps rng k)).
Proof.
  intros HP. induction n as [|n IH]; intros i ps rng k Hlow Hlen.
  - cbn [updateLoop ret fst]. apply Forall_lookup_2. intros j p Hj.
    apply (Hlow j p); [|exact Hj].
    apply lookup_lt_Some in Hj. lia.
  - cbn [updateLoop]. rewrite bind_eq. apply IH.
    + intros j p Hj. rewrite updateSlot_eq.
      destruct (ps !! i) as [q|] eqn:E; cbn [fst].
      * destruct (decide (j = i)) as [->|Hne].
        -- rewrite list_lookup_insert_eq by (apply lookup_lt_Some in E; lia).
           intros [= <-]. apply HP.
        -- rewrite list_lookup_insert_ne by congruence.
           apply Hlow. lia.
      * destruct (decide (j = i)) as [->|Hne]; [congruence|].
        apply Hlow. lia.
    + rewrite updateSlot_length. lia.
Qed.

Lemma updateLoop_S n i ps :
  updateLoop io rot (S n) i ps
  = bind (updateSlot io rot i ps) (updateLoop io rot n (S i)).
Proof. reflexivity. Qed.

(** The loop from index [i] leaves the slots below [i] alone. *)
Lemma updateLoop_lookup_lt n : forall i ps rng k j,
  (j < i)%nat -> fst (updateLoop io rot n i ps rng k) !! j = ps !! j.
Proof.
  induction n as [|n IH]; intros i ps rng k j Hj; [reflexivity|].
  cbn [updateLoop]. rewrite bind_eq, IH by lia.
  rewrite updateSlot_eq. destruct (ps !! i); [|reflexivity].
  cbn [fst]. apply list_lookup_insert_ne. lia.
Qed.

End UpdateLoop.

(** ** Emission: the buffers *)

Lemma writeSlot_Forall (P : Particle -> Prop) i p ps :
  Forall P ps -> P p -> Forall P (writeSlot i p ps).
Proof.
  intros Hps Hp. unfold writeSlot.
  destruct (0 <=? i)%Z; [apply Forall_insert; assumption | exact Hps].
Qed.

Lemma eruptionLoop_length n io activeCopy rng : forall sys k,
  length (particles (fst (eruptionLoop n io activeCopy sys rng k)))
  = length (particles sys).
Proof.
  induction n as [|n IH]; intros sys k; [reflexivity|].
  cbn [eruptionLoop]. rewrite ?bind_eq. cbn [random fst snd].
  destruct (Qltb (rng k) (8 # 10)).
  - rewrite ?bind_eq. unfold emitEruptionParticle.
    rewrite emitParticle_eq. cbn zeta. cbn [fst snd].
    rewrite IH. cbn [particles]. apply writeSlot_length.
  - rewrite ?bind_eq. cbn [ret fst snd]. apply IH.
Qed.

Lemma emission_length io activeCopy er sys rng k :
  length (particles (snd (fst (emission io activeCopy er sys rng k))))
  = length (particles sys).
Proof.
  unfold emission. destruct (isActive er).
  - rewrite ?bind_eq. cbn [ret fst snd]. apply eruptionLoop_length.
  - destruct (0 <? cooldown er)%Z; [reflexivity|].
    rewrite ?bind_eq. cbn [random fst snd].
    destruct (Qltb (rng k) ERUPTION_CHANCE); [reflexivity|].
    rewrite ?bind_eq. cbn [random fst snd].
    destruct (Qltb (rng (S k)) BASE_EMISSION_RATE); [|reflexivity].
    rewrite ?bind_eq. unfold emitBackgroundParticle.
    rewrite emitParticle_eq. cbn [ret fst snd particles].
    apply writeSlot_length.
Qed.

Lemma eruptionLoop_colored n io activeCopy rng : forall sys k,
  Forall colored (particles sys) ->
  Forall colored (particles (fst (eruptionLoop n io activeCopy sys rng k))).
Proof.
  induction n as [|n IH]; intros sys k Hc; [exact Hc|].
  cbn [eruptionLoop]. rewrite ?bind_eq. cbn [random fst snd].
  destruct (Qltb (rng k) (8 # 10)).
  - rewrite ?bind_eq. unfold emitEruptionParticle.
    rewrite emitParticle_eq. cbn zeta. cbn [fst snd].
    apply IH. cbn [particles].
    apply writeSlot_Forall; [exact Hc | exact eruptionColor_ok].
  - rewrite ?bind_eq. cbn [ret fst snd]. apply IH, Hc.
Qed.

Lemma emission_colored io activeCopy er sys rng k :
  Forall colored (particles sys) ->
  Forall colored (particles (snd (fst (emission io activeCopy er sys rng k)))).
Proof.
  intros Hc. unfold emission. destruct (isActive er).
  - rewrite ?bind_eq. cbn [ret fst snd]. apply eruptionLoop_colored, Hc.
  - destruct (0 <? cooldown er)%Z; [exact Hc|].
    rewrite ?bind_eq. cbn [random fst snd].
    destruct (Qltb (rng k) ERUPTION_CHANCE); [exact Hc|].
    rewrite ?bind_eq. cbn [random fst snd].
    destruct (Qltb (rng (S k)) BASE_EMISSION_RATE); [|exact Hc].
    rewrite ?bind_eq. unfold emitBackgroundParticle.
    rewrite emitParticle_eq. cbn [ret fst snd particles].
    apply writeSlot_Forall; [exact Hc | exact backgroundColor_ok].
Qed.

(** ** One frame: finite values and colors *)

Lemma tick_particles io rot er sys rng k :
  particles (snd (fst (tick io rot er sys rng k)))
  = let r := emission io (activeParticles sys) er sys rng k in
    fst (updateLoop io rot
           (Z.to_nat (Z.max MAX_PARTICLES (activeParticles sys))) O
           (particles (snd (fst r))) rng (snd r)).
Proof.
  unfold tick. cbn zeta. rewrite bind_eq.
  destruct (emission io (activeParticles sys) er sys rng k) as [[er' sys'] k'].
  cbn [fst snd]. rewrite bind_eq. reflexivity.
Qed.

(** C6 (no propagated NaN): for every system with its 1000 slots, whatever
    they hold, every eruption state, rotation and draws, and every finite
    position of Io, all positions and velocities are finite after the
    frame (state machine, emission and update loop). *)
Theorem tick_finite io rot er sys (rng : nat -> Q) :
  finite_vec io ->
  length (particles sys) = Z.to_nat MAX_PARTICLES ->
  Forall finite_particle (particles (snd (fst (tick io rot er sys rng O)))).
Proof.
  intros Hio Hlen. rewrite tick_particles. cbn zeta.
  apply updateLoop_establishes.
  - intros p rng' k'. apply updateParticle_finite, Hio.
  - intros j p Hj. lia.
  - rewrite emission_length, Hlen. lia.
Qed.

Lemma tick_finite_witness :
  finite_vec (vfin 12 0 0) /\
  length (particles initialSystem) = Z.to_nat MAX_PARTICLES /\
  Forall finite_particle
    (particles (snd (fst (tick (vfin 12 0 0) (Fin 0) initialEruption
                            initialSystem (fun _ => 0%Q) O)))).
Proof.
  assert (Hio : finite_vec (vfin 12 0 0)) by (repeat split).
  assert (Hlen : length (particles initialSystem) = Z.to_nat MAX_PARTICLES)
    by reflexivity.
  split; [exact Hio|]. split; [exact Hlen|].
  exact (tick_finite (vfin 12 0 0) (Fin 0) initialEruption initialSystem
           (fun _ => 0%Q) Hio Hlen).
Defined.

Lemma tick_colored io rot er sys rng k :
  finite_vec io ->
  Forall colored (particles sys) ->
  Forall colored (particles (snd (fst (tick io rot er sys rng k)))).
Proof.
  intros Hio Hc. rewrite tick_particles. cbn zeta.
  apply updateLoop_preserves.
  - intros p rng' k'. apply updateParticle_color, Hio.
  - apply emission_colored, Hc.
Qed.

Lemma ioPosition_finite a : is_finite a -> finite_vec (ioPosition a).
Proof.
  destruct a; [intros _ | contradiction..].
  unfold ioPosition, MOONS_IO_ORBIT_RADIUS, MOONS_IO_ORBIT_SPEED.
  repeat split.
Qed.

Lemma frame_state rng s :
  angle (frame rng s) = (angle s + Fin 1)%num /\
  particles (particleSystem (frame rng s))
  = particles (snd (fst (tick (ioPosition (angle s))
                           (jupiterRotationY s + JUPITER_ROTATION_SPEED)%num
                           (eruption s) (particleSystem s) rng O))).
Proof.
  unfold frame, animate. rewrite bind_eq.
  destruct (tick _ _ _ _ _ _) as [[er' sys'] k']. split; reflexivity.
Qed.

Lemma run_angle_finite n draws : is_finite (angle (run n draws initialState)).
Proof.
  induction n as [|n IH]; [exact I|].
  rewrite run_S. destruct (frame_state (draws n) (run n draws initialState))
    as [-> _].
  destruct (angle (run n draws initialState)); [exact I | contradiction..].
Qed.

(** C9 (color range): after any number of frames from the initial state,
    with any draws, the three color channels of every slot are in [0, 1]. *)
Theorem colors_in_unit_range (n : nat) (draws : nat -> nat -> Q) :
  Forall (fun p => in_unit (vx (color p)) /\ in_unit (vy (color p))
                   /\ in_unit (vz (color p)))
    (particles (particleSystem (run n draws initialState))).
Proof.
  change (Forall colored
            (particles (particleSystem (run n draws initialState)))).
  induction n as [|n IH].
  - apply Forall_replicate. exact backgroundColor_ok.
  - rewrite run_S.
    destruct (frame_state (draws n) (run n draws initialState)) as [_ ->].
    apply tick_colored; [|exact IH].
    apply ioPosition_finite, run_angle_finite.
Qed.

(** ** The guards on one slot *)

Lemma Q2R_zero : Q2R 0 = 0.
Proof. unfold Q2R. cbn. lra. Qed.

(** The NaN guard: a NaN component sends the particle back to Io, at rest,
    with its color, and reads no draw. *)
Lemma updateParticle_nan io rot p rng k :
  isNaN (vx (position p)) || isNaN (vy (position p))
  || isNaN (vz (position p)) = true ->
  updateParticle io rot p rng k = (resetToIo io p, k).
Proof. intros H. unfold updateParticle. cbn zeta. rewrite H. reflexivity. Qed.

(** The distance guard: out of bounds, the particle restarts near Io, at
    rest, with its color, and reads three draws. *)
Lemma updateParticle_out_of_bounds io rot p rng k :
  isNaN (vx (position p)) || isNaN (vy (position p))
  || isNaN (vz (position p)) = false ->
  ngt (THREE.length (position p)) MAX_DISTANCE
  || nlt (THREE.length (position p)) MIN_DISTANCE = true ->
  updateParticle io rot p rng k
  = (mkParticle (fst (jitter io (Fin 0.8) rng k)) zero3 (color p),
     S (S (S k))).
Proof.
  intros Hn Hb. unfold updateParticle. cbn zeta. rewrite Hn, Hb, bind_eq.
  reflexivity.
Qed.

(** An infinite component without NaN is caught by the distance guard. *)
Lemma updateParticle_infinite io rot p rng k :
  no_nan (position p) -> has_inf (position p) ->
  updateParticle io rot p rng k
  = (mkParticle (fst (jitter io (Fin 0.8) rng k)) zero3 (color p),
     S (S (S k))).
Proof.
  intros Hn Hi. apply updateParticle_out_of_bounds.
  - destruct Hn as (-> & -> & ->). reflexivity.
  - rewrite (length_has_inf _ Hn Hi). reflexivity.
Qed.

Lemma not_finite_cases v :
  ~ finite_vec v ->
  isNaN (vx v) || isNaN (vy v) || isNaN (vz v) = true
  \/ (no_nan v /\ has_inf v).
Proof.
  unfold finite_vec, no_nan, has_inf.
  destruct_vec v; cbn [vx vy vz is_finite isNaN is_inf orb]; tauto.
Qed.

(** C7 (NaN guard), amended: a slot whose position has a non-finite
    component gets no force, no integration and no color update.  With a
    NaN component it is reset to exactly the position of Io with velocity
    zero, and no draw is read.  With an infinite component and no NaN it is
    the distance guard that resets it: to the position of Io plus a jitter
    of three draws, with velocity zero. *)
Theorem nonfinite_position_reset io rot p (rng : nat -> Q) k :
  ~ finite_vec (position p) ->
  updateParticle io rot p rng k
  = if isNaN (vx (position p)) || isNaN (vy (position p))
       || isNaN (vz (position p))
    then (mkParticle io zero3 (color p), k)
    else (mkParticle (fst (jitter io (Fin 0.8) rng k)) zero3 (color p),
          S (S (S k))).
Proof.
  intros [Hn | [Hn Hi]]%not_finite_cases.
  - rewrite Hn. apply updateParticle_nan, Hn.
  - rewrite (updateParticle_infinite io rot p rng k Hn Hi).
    destruct Hn as (-> & -> & ->). reflexivity.
Qed.

Lemma nonfinite_position_reset_witness :
  ~ finite_vec (position (mkParticle (V3 NaN (Fin 0) (Fin 0)) zero3
                            backgroundColor)) /\
  updateParticle (vfin 12 0 0) (Fin 0)
    (mkParticle (V3 NaN (Fin 0) (Fin 0)) zero3 backgroundColor)
    (fun _ => 0%Q) O
  = (mkParticle (vfin 12 0 0) zero3 backgroundColor, O).
Proof.
  assert (H : ~ finite_vec (position (mkParticle (V3 NaN (Fin 0) (Fin 0))
                                        zero3 backgroundColor))).
  { intros [[] _]. }
  split; [exact H|].
  exact (nonfinite_position_reset (vfin 12 0 0) (Fin 0)
           (mkParticle (V3 NaN (Fin 0) (Fin 0)) zero3 backgroundColor)
           (fun _ => 0%Q) O H).
Defined.

(** The position after a jitter of draws 0 around (12, 0, 0). *)
Lemma jitter_example :
  fst (jitter (vfin 12 0 0) (Fin 0.8) (fun _ => 0%Q) O)
  = vfin (12 + (0 + - (0.5)) * 0.8) (0 + (0 + - (0.5)) * 0.8)
         (0 + (0 + - (0.5)) * 0.8).
Proof.
  rewrite jitter_eq. unfold ofQ, vfin.
  cbn [fst vx vy vz nsub nneg nadd nmul]. rewrite Q2R_zero. reflexivity.
Qed.

(** C7 as stated fails on an infinite position: the slot at
    (+infinity, 0, 0) is not reset to the position (12, 0, 0) of Io. *)
Lemma infinite_position_not_reset_to_io :
  ~ finite_vec (V3 PInf (Fin 0) (Fin 0)) /\
  position (fst (updateParticle (vfin 12 0 0) (Fin 0)
                   (mkParticle (V3 PInf (Fin 0) (Fin 0)) zero3
                      backgroundColor)
                   (fun _ => 0%Q) O))
  <> vfin 12 0 0.
Proof.
  split; [intros [[] _]|].
  rewrite updateParticle_infinite.
  - cbn [fst position]. rewrite jitter_example. unfold vfin.
    intros [= H _ _]. lra.
  - repeat split.
  - left. exact I.
Qed.

(** ** Idle slots *)

Lemma length_zero3 : THREE.length zero3 = Fin 0.
Proof.
  unfold zero3. rewrite length_vfin. f_equal.
  replace (0 * 0 + 0 * 0 + 0 * 0) with 0 by ring. apply sqrt_0.
Qed.

(** C8 (idle slots), amended: a slot that was never written, at the origin
    and at rest, is not a fixed point of the update.  The distance guard
    (0 is below the minimal distance) moves it to the position of Io plus a
    jitter of three draws; the velocity stays zero and the color is kept. *)
Theorem idle_slot_moved io rot col (rng : nat -> Q) k :
  updateParticle io rot (mkParticle zero3 zero3 col) rng k
  = (mkParticle (fst (jitter io (Fin 0.8) rng k)) zero3 col, S (S (S k))).
Proof.
  apply updateParticle_out_of_bounds; [reflexivity|].
  cbn [position]. rewrite length_zero3.
  unfold ngt, MAX_DISTANCE, MIN_DISTANCE. cbn [nlt].
  rewrite (Rltb_true 0 3) by lra. apply orb_true_r.
Qed.

(** C8 as stated fails: with Io at (12, 0, 0) the update moves the idle
    slot of the initial buffers away from the origin; and on the initial
    buffers, where the counter is 0, the loop up to the capacity and the
    loop up to the counter give different buffers. *)
Lemma idle_slot_not_fixed :
  fst (updateParticle (vfin 12 0 0) (Fin 0) initialParticle (fun _ => 0%Q) O)
  <> initialParticle /\
  fst (updateLoop (vfin 12 0 0) (Fin 0)
         (Z.to_nat (Z.max MAX_PARTICLES (activeParticles initialSystem))) O
         (particles initialSystem) (fun _ => 0%Q) O)
  <> fst (updateLoop (vfin 12 0 0) (Fin 0)
            (Z.to_nat (activeParticles initialSystem)) O
            (particles initialSystem) (fun _ => 0%Q) O).
Proof.
  assert (Hmove :
    fst (updateParticle (vfin 12 0 0) (Fin 0) initialParticle
           (fun _ => 0%Q) O)
    <> initialParticle).
  { unfold initialParticle.
    rewrite (updateParticle_out_of_bounds (vfin 12 0 0) (Fin 0)).
    - cbn [fst]. rewrite jitter_example. unfold zero3, vfin.
      intros [= H _ _]. lra.
    - reflexivity.
    - cbn [position]. rewrite length_zero3.
      unfold ngt, MAX_DISTANCE, MIN_DISTANCE. cbn [nlt].
      rewrite (Rltb_true 0 3) by lra. apply orb_true_r. }
  split; [exact Hmove|].
  intros Heq. apply (f_equal (fun l => l !! O)) in Heq.
  change (Z.to_nat (activeParticles initialSystem)) with O in Heq.
  change (Z.to_nat (Z.max MAX_PARTICLES (activeParticles initialSystem)))
    with (S 999) in Heq.
  rewrite updateLoop_S, bind_eq, updateLoop_lookup_lt in Heq by lia.
  rewrite updateSlot_eq in Heq.
  change (particles initialSystem !! O) with (Some initialParticle) in Heq.
  cbn [updateLoop ret fst] in Heq.
  rewrite list_lookup_insert_eq in Heq
    by (unfold initialSystem; cbn [particles]; rewrite length_replicate;
        unfold MAX_PARTICLES; lia).
  change (particles initialSystem !! O) with (Some initialParticle) in Heq.
  injection Heq as Heq. exact (Hmove Heq).
Qed.

(** ** Rotations of finite vectors *)

Lemma cos_half t : cos t = 1 - 2 * sin (t / 2) * sin (t / 2).
Proof.
  replace t with (2 * (t / 2)) at 1 by field. rewrite cos_2a_sin. ring.
Qed.

Lemma sin_half t : sin t = 2 * sin (t / 2) * cos (t / 2).
Proof.
  replace t with (2 * (t / 2)) at 1 by field. apply sin_2a.
Qed.

Lemma half_angle t : (Fin t / Fin 2)%num = Fin (t / 2).
Proof. cbn [ndiv]. rewrite Reqb_false by lra. reflexivity. Qed.

(** A rotation about the x axis, in matrix form. *)
Lemma applyAxisAngle_X a b c t :
  THREE.applyAxisAngle (vfin a b c) axisX (Fin t)
  = vfin a (cos t * b - sin t * c) (sin t * b + cos t * c).
Proof.
  unfold THREE.applyAxisAngle, THREE.setFromAxisAngle. cbn zeta.
  rewrite half_angle. unfold THREE.applyQuaternion, axisX, vfin.
  cbn [vx vy vz THREE.qx THREE.qy THREE.qz THREE.qw nsin ncos nmul nsub nadd
       nneg].
  rewrite (cos_half t), (sin_half t).
  f_equal; f_equal; ring.
Qed.

(** A rotation about the y axis, in matrix form. *)
Lemma applyAxisAngle_Y a b c t :
  THREE.applyAxisAngle (vfin a b c) axisY (Fin t)
  = vfin (cos t * a + sin t * c) b (cos t * c - sin t * a).
Proof.
  unfold THREE.applyAxisAngle, THREE.setFromAxisAngle. cbn zeta.
  rewrite half_angle. unfold THREE.applyQuaternion, axisY, vfin.
  cbn [vx vy vz THREE.qx THREE.qy THREE.qz THREE.qw nsin ncos nmul nsub nadd
       nneg].
  rewrite (cos_half t), (sin_half t).
  f_equal; f_equal; ring.
Qed.

Lemma applyAxisAngle_nan3 axis t :
  THREE.applyAxisAngle nan3 axis (Fin t) = nan3.
Proof. reflexivity. Qed.

Lemma MAGNETIC_TILT_eq : MAGNETIC_TILT = Fin (PI / 10).
Proof.
  unfold MAGNETIC_TILT. cbn [ndiv]. rewrite Reqb_false by lra. reflexivity.
Qed.

(** ** The dipole formula *)

Lemma getMagneticFieldVector_eq position jupiterRotation :
  getMagneticFieldVector position jupiterRotation
  = THREE.multiplyScalar
      (THREE.applyAxisAngle
         (THREE.applyAxisAngle
            (dipoleField
               (THREE.applyAxisAngle
                  (THREE.applyAxisAngle position axisX MAGNETIC_TILT)
                  axisY jupiterRotation))
            axisY (- jupiterRotation)%num)
         axisX (- MAGNETIC_TILT)%num)
      MAGNETIC_FIELD_STRENGTH.
Proof. reflexivity. Qed.

(** The formula away from the origin; [rho] is the norm. *)
Lemma dipoleField_vfin x y z rho :
  0 < rho -> x * x + y * y + z * z = rho * rho ->
  dipoleField (vfin x y z)
  = vfin (3 * y * x / (rho * rho * rho * rho * rho))
         ((3 * y * y - rho * rho) / (rho * rho * rho * rho * rho))
         (3 * y * z / (rho * rho * rho * rho * rho)).
Proof.
  intros Hpos Hsq. unfold dipoleField. cbn zeta.
  rewrite length_vfin, Hsq, sqrt_square by lra.
  assert (H5 : rho * rho * (rho * rho) * rho <> 0).
  { repeat apply Rmult_integral_contrapositive_currified; lra. }
  unfold THREE.divideScalar, THREE.multiplyScalar, THREE.sub, THREE.dot,
    axisY, vfin.
  cbn [vx vy vz nmul nadd nsub nneg ndiv].
  rewrite (Reqb_false _ 0 H5). cbn [nmul].
  f_equal; f_equal; field; lra.
Qed.

Lemma sumsq_zero x y z :
  x * x + y * y + z * z = 0 -> x = 0 /\ y = 0 /\ z = 0.
Proof. intros H. repeat split; nra. Qed.

(** The formula at the origin: 0 / 0 on every axis. *)
Lemma dipoleField_origin x y z :
  x * x + y * y + z * z = 0 -> dipoleField (vfin x y z) = nan3.
Proof.
  intros Hsq. destruct (sumsq_zero x y z Hsq) as (-> & -> & ->).
  unfold dipoleField. cbn zeta. fold zero3. rewrite length_zero3.
  unfold THREE.divideScalar, THREE.multiplyScalar, THREE.sub, THREE.dot,
    axisY, zero3, vfin.
  cbn [vx vy vz nmul nadd nsub nneg ndiv].
  rewrite (proj2 (Reqb_eq (0 * 0 * (0 * 0) * 0) 0)) by ring.
  rewrite (Reqb_false 1 0) by lra.
  unfold inf_of_sign. rewrite (Rltb_true 0 1) by lra.
  cbn [nmul].
  rewrite !(proj2 (Reqb_eq _ 0)) by ring.
  reflexivity.
Qed.

Lemma rotation_sumsq C S x y z :
  C * C + S * S = 1 ->
  (C * x + S * z) * (C * x + S * z) + y * y + (C * z - S * x) * (C * z - S * x)
  = x * x + y * y + z * z.
Proof.
  intros H.
  transitivity ((C * C + S * S) * (x * x + z * z) + y * y); [ring|].
  rewrite H. ring.
Qed.

Lemma cos_sin_one t : cos t * cos t + sin t * sin t = 1.
Proof. pose proof (sin2_cos2 t) as H. unfold Rsqr in H. lra. Qed.

(** The dipole is symmetric about its axis: turning the position about y,
    by any angle, and the field back gives the field at the position. *)
Lemma dipoleField_axial x y z phi :
  THREE.applyAxisAngle
    (dipoleField (THREE.applyAxisAngle (vfin x y z) axisY (Fin phi)))
    axisY (Fin (- phi))
  = dipoleField (vfin x y z).
Proof.
  rewrite applyAxisAngle_Y.
  pose proof (rotation_sumsq (cos phi) (sin phi) x y z (cos_sin_one phi))
    as Hrot.
  destruct (Req_dec (x * x + y * y + z * z) 0) as [H0 | Hne].
  - rewrite (dipoleField_origin x y z H0).
    rewrite dipoleField_origin by (rewrite Hrot; exact H0).
    apply applyAxisAngle_nan3.
  - pose proof (sumsq_nonneg x y z) as Hge.
    set (rho := sqrt (x * x + y * y + z * z)).
    assert (Hpos : 0 < rho) by (apply sqrt_lt_R0; lra).
    assert (Hsq : x * x + y * y + z * z = rho * rho)
      by (symmetry; apply sqrt_sqrt; lra).
    rewrite (dipoleField_vfin x y z rho Hpos Hsq).
    rewrite (dipoleField_vfin _ _ _ rho Hpos) by (rewrite Hrot; exact Hsq).
    rewrite applyAxisAngle_Y, cos_neg, sin_neg.
    pose proof (cos_sin_one phi) as H1.
    set (C := cos phi) in *. set (S := sin phi) in *.
    set (k := rho * rho * rho * rho * rho).
    assert (Hk : k <> 0).
    { unfold k. repeat apply Rmult_integral_contrapositive_currified; lra. }
    unfold vfin. f_equal; f_equal.
    + transitivity ((C * C + S * S) * (3 * y * x / k)); [field; exact Hk|].
      rewrite H1. ring.
    + transitivity ((C * C + S * S) * (3 * y * z / k)); [field; exact Hk|].
      rewrite H1. ring.
Qed.

(** ** The field in the words of the specification *)

(** On finite positions the formula of the specification and the one of the
    code give the same vector. *)
Lemma specDipole_dipoleField x y z :
  specDipole (vfin x y z) = dipoleField (vfin x y z).
Proof.
  destruct (Req_dec (x * x + y * y + z * z) 0) as [H0 | Hne].
  - rewrite (dipoleField_origin x y z H0).
    destruct (sumsq_zero x y z H0) as (-> & -> & ->).
    unfold specDipole. cbn zeta. fold zero3. rewrite length_zero3.
    unfold THREE.multiplyScalar, THREE.sub, THREE.dot, axisY, zero3, vfin.
    cbn [vx vy vz nmul nadd nsub nneg ndiv].
    rewrite (proj2 (Reqb_eq (0 * 0 * 0 * 0 * 0) 0)) by ring.
    rewrite !(proj2 (Reqb_eq _ 0)) by ring.
    reflexivity.
  - pose proof (sumsq_nonneg x y z) as Hge.
    set (rho := sqrt (x * x + y * y + z * z)).
    assert (Hpos : 0 < rho) by (apply sqrt_lt_R0; lra).
    assert (Hsq : x * x + y * y + z * z = rho * rho)
      by (symmetry; apply sqrt_sqrt; lra).
    rewrite (dipoleField_vfin x y z rho Hpos Hsq).
    unfold specDipole. cbn zeta.
    rewrite length_vfin, Hsq, sqrt_square by lra.
    assert (H5 : rho * rho * rho * rho * rho <> 0).
    { repeat apply Rmult_integral_contrapositive_currified; lra. }
    unfold THREE.multiplyScalar, THREE.sub, THREE.dot, axisY, vfin.
    cbn [vx vy vz nmul nadd nsub nneg ndiv].
    rewrite (Reqb_false _ 0 H5).
    f_equal; f_equal; field; lra.
Qed.

(** The field at a finite position, whatever the rotation angle: the dipole
    formula in the tilted frame. *)
Lemma getMagneticFieldVector_tilted a b c theta :
  getMagneticFieldVector (vfin a b c) (Fin theta)
  = THREE.multiplyScalar
      (THREE.applyAxisAngle
         (dipoleField
            (THREE.applyAxisAngle (vfin a b c) axisX MAGNETIC_TILT))
         axisX (- MAGNETIC_TILT)%num)
      MAGNETIC_FIELD_STRENGTH.
Proof.
  rewrite getMagneticFieldVector_eq, MAGNETIC_TILT_eq, applyAxisAngle_X.
  cbn [nneg]. rewrite dipoleField_axial. reflexivity.
Qed.

(** C4 (field formula): on every finite position and rotation angle the
    field computed by the code is the vector that the steps of the
    specification give.  (The code turns by plus the angle about y and back
    by minus the angle, the specification the other way round; the dipole
    being symmetric about y, the two agree.) *)
Theorem getMagneticFieldVector_spec (a b c theta : R) :
  getMagneticFieldVector (vfin a b c) (Fin theta)
  = fieldAt_spec (vfin a b c) (Fin theta).
Proof.
  rewrite getMagneticFieldVector_tilted.
  unfold fieldAt_spec. cbn zeta.
  rewrite MAGNETIC_TILT_eq, applyAxisAngle_X. cbn [nneg].
  rewrite applyAxisAngle_Y, specDipole_dipoleField, <- applyAxisAngle_Y.
  rewrite <- (Ropp_involutive theta) at 2.
  rewrite dipoleField_axial. reflexivity.
Qed.

(** ** The symmetry of the field *)

Lemma vneg_vfin a b c : vneg (vfin a b c) = vfin (- a) (- b) (- c).
Proof. reflexivity. Qed.

Lemma dipoleField_even x y z :
  dipoleField (vfin (- x) (- y) (- z)) = dipoleField (vfin x y z).
Proof.
  assert (Hs : - x * - x + - y * - y + - z * - z = x * x + y * y + z * z)
    by ring.
  destruct (Req_dec (x * x + y * y + z * z) 0) as [H0 | Hne].
  - rewrite (dipoleField_origin x y z H0).
    apply dipoleField_origin. rewrite Hs. exact H0.
  - pose proof (sumsq_nonneg x y z) as Hge.
    set (rho := sqrt (x * x + y * y + z * z)).
    assert (Hpos : 0 < rho) by (apply sqrt_lt_R0; lra).
    assert (Hsq : x * x + y * y + z * z = rho * rho)
      by (symmetry; apply sqrt_sqrt; lra).
    rewrite (dipoleField_vfin x y z rho Hpos Hsq).
    rewrite (dipoleField_vfin _ _ _ rho Hpos) by (rewrite Hs; exact Hsq).
    unfold vfin. f_equal; f_equal; field; lra.
Qed.

(** The field is even: the same at [p] and at [- p]. *)
Lemma getMagneticFieldVector_even a b c theta :
  getMagneticFieldVector (vneg (vfin a b c)) (Fin theta)
  = getMagneticFieldVector (vfin a b c) (Fin theta).
Proof.
  rewrite vneg_vfin.
  rewrite !getMagneticFieldVector_tilted, MAGNETIC_TILT_eq, !applyAxisAngle_X.
  set (t := PI / 10).
  replace (vfin (- a) (cos t * - b - sin t * - c) (sin t * - b + cos t * - c))
    with (vfin (- a) (- (cos t * b - sin t * c)) (- (sin t * b + cos t * c)))
    by (unfold vfin; f_equal; f_equal; ring).
  rewrite dipoleField_even. reflexivity.
Qed.

Lemma tilt_sumsq C S a b c :
  C * C + S * S = 1 ->
  a * a + (C * b - S * c) * (C * b - S * c) + (S * b + C * c) * (S * b + C * c)
  = a * a + b * b + c * c.
Proof.
  intros H.
  transitivity ((C * C + S * S) * (b * b + c * c) + a * a); [ring|].
  rewrite H. ring.
Qed.

(** The field away from the origin, component by component: [x y z] is the
    position in the tilted frame and [rho] its norm. *)
Lemma getMagneticFieldVector_form a b c theta :
  0 < a * a + b * b + c * c ->
  exists x y z rho : R,
    0 < rho /\ x * x + y * y + z * z = rho * rho /\
    let k := rho * rho * rho * rho * rho in
    let C := cos (- (PI / 10)) in
    let S := sin (- (PI / 10)) in
    getMagneticFieldVector (vfin a b c) (Fin theta)
    = vfin (3 * y * x / k * 0.2)
           ((C * ((3 * y * y - rho * rho) / k) - S * (3 * y * z / k)) * 0.2)
           ((S * ((3 * y * y - rho * rho) / k) + C * (3 * y * z / k)) * 0.2).
Proof.
  intros Hp.
  rewrite getMagneticFieldVector_tilted, MAGNETIC_TILT_eq, applyAxisAngle_X.
  set (t := PI / 10).
  set (y := cos t * b - sin t * c). set (z := sin t * b + cos t * c).
  pose proof (tilt_sumsq (cos t) (sin t) a b c (cos_sin_one t)) as Hs.
  fold y z in Hs.
  set (rho := sqrt (a * a + y * y + z * z)).
  assert (Hpos : 0 < rho) by (apply sqrt_lt_R0; lra).
  assert (Hsq : a * a + y * y + z * z = rho * rho)
    by (symmetry; apply sqrt_sqrt; lra).
  exists a, y, z, rho. split; [exact Hpos|]. split; [exact Hsq|].
  cbn zeta. rewrite (dipoleField_vfin a y z rho Hpos Hsq).
  cbn [nneg]. rewrite applyAxisAngle_X. reflexivity.
Qed.

Lemma getMagneticFieldVector_finite a b c theta :
  0 < a * a + b * b + c * c ->
  finite_vec (getMagneticFieldVector (vfin a b c) (Fin theta)).
Proof.
  intros Hp.
  destruct (getMagneticFieldVector_form a b c theta Hp)
    as (x & y & z & rho & _ & _ & ->).
  repeat split.
Qed.

(** The field of the dipole vanishes nowhere. *)
Lemma getMagneticFieldVector_nonzero a b c theta :
  0 < a * a + b * b + c * c ->
  getMagneticFieldVector (vfin a b c) (Fin theta) <> zero3.
Proof.
  intros Hp.
  destruct (getMagneticFieldVector_form a b c theta Hp)
    as (x & y & z & rho & Hpos & Hsq & ->).
  pose proof (cos_sin_one (- (PI / 10))) as H1.
  set (C := cos (- (PI / 10))) in *. set (S := sin (- (PI / 10))) in *.
  set (k := rho * rho * rho * rho * rho).
  assert (Hk : 0 < k) by (unfold k; repeat apply Rmult_lt_0_compat; lra).
  set (Dx := 3 * y * x / k). set (Dy := (3 * y * y - rho * rho) / k).
  set (Dz := 3 * y * z / k).
  unfold zero3, vfin. intros [= Hx Hy Hz].
  assert (HDx : Dx = 0) by lra.
  assert (HDy : Dy = 0).
  { transitivity ((C * C + S * S) * Dy); [rewrite H1; ring|].
    transitivity (C * (C * Dy - S * Dz) + S * (S * Dy + C * Dz)); [ring|].
    replace (C * Dy - S * Dz) with 0 by lra.
    replace (S * Dy + C * Dz) with 0 by lra. ring. }
  assert (HDz : Dz = 0).
  { transitivity ((C * C + S * S) * Dz); [rewrite H1; ring|].
    transitivity (C * (S * Dy + C * Dz) - S * (C * Dy - S * Dz)); [ring|].
    replace (C * Dy - S * Dz) with 0 by lra.
    replace (S * Dy + C * Dz) with 0 by lra. ring. }
  assert (Ex : y * x = 0).
  { replace (y * x) with (Dx * k / 3) by (unfold Dx; field; lra).
    rewrite HDx. lra. }
  assert (Ez : y * z = 0).
  { replace (y * z) with (Dz * k / 3) by (unfold Dz; field; lra).
    rewrite HDz. lra. }
  assert (Ey : 3 * (y * y) = rho * rho).
  { replace (3 * (y * y)) with (Dy * k + rho * rho) by (unfold Dy; field; lra).
    rewrite HDy. lra. }
  destruct (Rmult_integral _ _ Ex) as [Y0 | X0].
  - subst y. nra.
  - destruct (Rmult_integral _ _ Ez) as [Y0 | Z0].
    + subst y. nra.
    + subst x z. nra.
Qed.

(** C5 (field symmetry), amended: at a finite position other than the
    origin, for every rotation angle, the field at [- p] is the field at
    [p], a finite vector that is not zero: the two are parallel, not
    antiparallel, and equal in magnitude. *)
Theorem field_even (a b c theta : R) :
  0 < a * a + b * b + c * c ->
  getMagneticFieldVector (vneg (vfin a b c)) (Fin theta)
  = getMagneticFieldVector (vfin a b c) (Fin theta) /\
  finite_vec (getMagneticFieldVector (vfin a b c) (Fin theta)) /\
  getMagneticFieldVector (vfin a b c) (Fin theta) <> zero3.
Proof.
  intros Hp. split; [apply getMagneticFieldVector_even|].
  split; [apply getMagneticFieldVector_finite, Hp|].
  apply getMagneticFieldVector_nonzero, Hp.
Qed.

Lemma field_even_witness :
  0 < 1 * 1 + 0 * 0 + 0 * 0 /\
  getMagneticFieldVector (vneg (vfin 1 0 0)) (Fin 0)
  = getMagneticFieldVector (vfin 1 0 0) (Fin 0).
Proof.
  assert (H : 0 < 1 * 1 + 0 * 0 + 0 * 0) by lra.
  split; [exact H|].
  exact (proj1 (field_even 1 0 0 0 H)).
Defined.

(** C5 as stated fails: at the position (1, 0, 0) and the angle 0 the field
    at [- p] is not the opposite of the field at [p]. *)
Lemma field_not_antiparallel :
  0 < 1 * 1 + 0 * 0 + 0 * 0 /\
  getMagneticFieldVector (vneg (vfin 1 0 0)) (Fin 0)
  <> vneg (getMagneticFieldVector (vfin 1 0 0) (Fin 0)).
Proof.
  assert (H : 0 < 1 * 1 + 0 * 0 + 0 * 0) by lra.
  split; [exact H|].
  rewrite getMagneticFieldVector_even.
  pose proof (getMagneticFieldVector_nonzero 1 0 0 0 H) as Hnz.
  destruct (finite_vec_vfin _ (getMagneticFieldVector_finite 1 0 0 0 H))
    as (u & v & w & E).
  rewrite E in *. unfold vneg, vfin, zero3 in *. cbn [vx vy vz nneg].
  intros [= Hu Hv Hw]. apply Hnz.
  unfold vfin. f_equal; f_equal; lra.
Qed.

(** * Further properties of the code *)

(** ** The field: rotation, origin, scaling, magnitude *)

(** The rotation angle has no effect on the field at a finite position:
    the turn about y and the turn back cancel around the dipole. *)
Theorem field_independent_of_rotation (a b c theta1 theta2 : R) :
  getMagneticFieldVector (vfin a b c) (Fin theta1)
  = getMagneticFieldVector (vfin a b c) (Fin theta2).
Proof. rewrite !getMagneticFieldVector_tilted. reflexivity. Qed.

(** At the origin the division by [r5 = 0] makes every component NaN. *)
Theorem field_at_origin_is_nan (theta : R) :
  getMagneticFieldVector zero3 (Fin theta) = nan3.
Proof.
  unfold zero3. rewrite getMagneticFieldVector_tilted, MAGNETIC_TILT_eq.
  rewrite applyAxisAngle_X, dipoleField_origin by ring.
  cbn [nneg]. rewrite applyAxisAngle_nan3. reflexivity.
Qed.

Lemma multiplyScalar_vfin a b c s :
  THREE.multiplyScalar (vfin a b c) (Fin s) = vfin (a * s) (b * s) (c * s).
Proof. reflexivity. Qed.

Lemma dipoleField_scale x y z l :
  0 < l ->
  dipoleField (vfin (l * x) (l * y) (l * z))
  = THREE.multiplyScalar (dipoleField (vfin x y z)) (Fin (1 / (l * l * l))).
Proof.
  intros Hl.
  assert (Hs : l * x * (l * x) + l * y * (l * y) + l * z * (l * z)
               = l * l * (x * x + y * y + z * z)) by ring.
  destruct (Req_dec (x * x + y * y + z * z) 0) as [H0 | Hne].
  - rewrite (dipoleField_origin x y z H0).
    rewrite dipoleField_origin by (rewrite Hs, H0; ring). reflexivity.
  - pose proof (sumsq_nonneg x y z) as Hge.
    set (rho := sqrt (x * x + y * y + z * z)).
    assert (Hpos : 0 < rho) by (apply sqrt_lt_R0; lra).
    assert (Hsq : x * x + y * y + z * z = rho * rho)
      by (symmetry; apply sqrt_sqrt; lra).
    rewrite (dipoleField_vfin x y z rho Hpos Hsq).
    rewrite (dipoleField_vfin _ _ _ (l * rho))
      by (try (apply Rmult_lt_0_compat; lra); rewrite Hs, Hsq; ring).
    rewrite multiplyScalar_vfin.
    unfold vfin. f_equal; f_equal; field; lra.
Qed.

(** The field falls off as the cube of the distance: at [l p], for a
    positive [l], it is the field at [p] divided by [l^3]. *)
Theorem field_inverse_cube (a b c theta l : R) :
  0 < l ->
  getMagneticFieldVector (vfin (l * a) (l * b) (l * c)) (Fin theta)
  = THREE.multiplyScalar (getMagneticFieldVector (vfin a b c) (Fin theta))
      (Fin (1 / (l * l * l))).
Proof.
  intros Hl.
  rewrite !getMagneticFieldVector_tilted, MAGNETIC_TILT_eq, !applyAxisAngle_X.
  set (t := PI / 10).
  replace (vfin (l * a) (cos t * (l * b) - sin t * (l * c))
             (sin t * (l * b) + cos t * (l * c)))
    with (vfin (l * a) (l * (cos t * b - sin t * c))
            (l * (sin t * b + cos t * c)))
    by (unfold vfin; f_equal; f_equal; ring).
  rewrite (dipoleField_scale _ _ _ l Hl).
  set (y := cos t * b - sin t * c). set (z := sin t * b + cos t * c).
  destruct (Req_dec (a * a + y * y + z * z) 0) as [H0 | Hne].
  - rewrite (dipoleField_origin a y z H0). reflexivity.
  - pose proof (sumsq_nonneg a y z) as Hge.
    set (rho := sqrt (a * a + y * y + z * z)).
    assert (Hpos : 0 < rho) by (apply sqrt_lt_R0; lra).
    assert (Hsq : a * a + y * y + z * z = rho * rho)
      by (symmetry; apply sqrt_sqrt; lra).
    rewrite (dipoleField_vfin a y z rho Hpos Hsq).
    cbn [nneg]. unfold MAGNETIC_FIELD_STRENGTH.
    rewrite !multiplyScalar_vfin, !applyAxisAngle_X, !multiplyScalar_vfin.
    unfold vfin. f_equal; f_equal; ring.
Qed.

Lemma field_inverse_cube_witness :
  0 < 2 /\
  getMagneticFieldVector (vfin (2 * 1) (2 * 0) (2 * 0)) (Fin 0)
  = THREE.multiplyScalar (getMagneticFieldVector (vfin 1 0 0) (Fin 0))
      (Fin (1 / (2 * 2 * 2))).
Proof.
  assert (H : 0 < 2) by lra.
  split; [exact H | exact (field_inverse_cube 1 0 0 0 2 H)].
Defined.

Lemma getMagneticFieldVector_form_norm a b c theta :
  0 < a * a + b * b + c * c ->
  exists x y z rho : R,
    0 < rho /\ x * x + y * y + z * z = rho * rho /\
    rho = sqrt (a * a + b * b + c * c) /\
    let k := rho * rho * rho * rho * rho in
    let C := cos (- (PI / 10)) in
    let S := sin (- (PI / 10)) in
    getMagneticFieldVector (vfin a b c) (Fin theta)
    = vfin (3 * y * x / k * 0.2)
           ((C * ((3 * y * y - rho * rho) / k) - S * (3 * y * z / k)) * 0.2)
           ((S * ((3 * y * y - rho * rho) / k) + C * (3 * y * z / k)) * 0.2).
Proof.
  intros Hp.
  rewrite getMagneticFieldVector_tilted, MAGNETIC_TILT_eq, applyAxisAngle_X.
  set (t := PI / 10).
  set (y := cos t * b - sin t * c). set (z := sin t * b + cos t * c).
  pose proof (tilt_sumsq (cos t) (sin t) a b c (cos_sin_one t)) as Hs.
  fold y z in Hs.
  set (rho := sqrt (a * a + y * y + z * z)).
  assert (Hpos : 0 < rho) by (apply sqrt_lt_R0; lra).
  assert (Hsq : a * a + y * y + z * z = rho * rho)
    by (symmetry; apply sqrt_sqrt; lra).
  exists a, y, z, rho. split; [exact Hpos|]. split; [exact Hsq|].
  split; [unfold rho; rewrite Hs; reflexivity|].
  cbn zeta. rewrite (dipoleField_vfin a y z rho Hpos Hsq).
  cbn [nneg]. rewrite applyAxisAngle_X. reflexivity.
Qed.

(** The magnitude of the field at distance [rho] from the origin lies
    between [0.2 / rho^3] (on the magnetic equator) and [0.4 / rho^3] (on
    the magnetic axis). *)
Theorem field_magnitude_bounds (a b c theta : R) :
  0 < a * a + b * b + c * c ->
  let rho := sqrt (a * a + b * b + c * c) in
  exists r : R,
    THREE.length (getMagneticFieldVector (vfin a b c) (Fin theta)) = Fin r /\
    0.2 / (rho * rho * rho) <= r <= 0.4 / (rho * rho * rho).
Proof.
  intros Hp rho0.
  destruct (getMagneticFieldVector_form_norm a b c theta Hp)
    as (x & y & z & rho & Hpos & Hsq & Hrho & ->).
  subst rho0. rewrite <- Hrho. clear Hrho.
  pose proof (cos_sin_one (- (PI / 10))) as H1.
  set (C := cos (- (PI / 10))) in *. set (S := sin (- (PI / 10))) in *.
  set (k := rho * rho * rho * rho * rho).
  assert (Hk : 0 < k) by (unfold k; repeat apply Rmult_lt_0_compat; lra).
  set (Dx := 3 * y * x / k). set (Dy := (3 * y * y - rho * rho) / k).
  set (Dz := 3 * y * z / k).
  rewrite length_vfin. eexists. split; [reflexivity|].
  set (E := _ + _ + _).
  set (w := / (rho * rho * rho * rho * rho * rho * rho * rho)).
  assert (Hw : 0 < w).
  { apply Rinv_0_lt_compat. repeat apply Rmult_lt_0_compat; lra. }
  assert (HE : E = 0.2 * 0.2 * (3 * (y * y * w) + rho * rho * w)).
  { transitivity
      (0.2 * 0.2 * ((C * C + S * S) * (Dy * Dy + Dz * Dz) + Dx * Dx));
      [unfold E; ring|].
    rewrite H1.
    replace (1 * (Dy * Dy + Dz * Dz) + Dx * Dx)
      with ((9 * (y * y) * (x * x) + (3 * y * y - rho * rho)
             * (3 * y * y - rho * rho) + 9 * (y * y) * (z * z)) / (k * k))
      by (unfold Dx, Dy, Dz; field; lra).
    replace (x * x) with (rho * rho - y * y - z * z) by lra.
    unfold k, w. field. lra. }
  assert (Hy : 0 <= y * y <= rho * rho) by nra.
  assert (HB : 0 <= y * y * w <= rho * rho * w) by nra.
  assert (Hlo : 0.2 / (rho * rho * rho) * (0.2 / (rho * rho * rho))
                = 0.2 * 0.2 * (rho * rho * w)) by (unfold w; field; lra).
  assert (Hhi : 0.4 / (rho * rho * rho) * (0.4 / (rho * rho * rho))
                = 0.4 * 0.4 * (rho * rho * w)) by (unfold w; field; lra).
  assert (P3 : 0 < rho * rho * rho) by (repeat apply Rmult_lt_0_compat; lra).
  assert (Plo : 0 <= 0.2 / (rho * rho * rho))
    by (apply Rlt_le, Rdiv_lt_0_compat; lra).
  assert (Phi : 0 <= 0.4 / (rho * rho * rho))
    by (apply Rlt_le, Rdiv_lt_0_compat; lra).
  split.
  - rewrite <- (sqrt_square (0.2 / (rho * rho * rho))) by exact Plo.
    apply sqrt_le_1_alt. rewrite Hlo, HE. lra.
  - rewrite <- (sqrt_square (0.4 / (rho * rho * rho))) by exact Phi.
    apply sqrt_le_1_alt. rewrite Hhi, HE. lra.
Qed.

Lemma field_magnitude_bounds_witness :
  0 < 1 * 1 + 0 * 0 + 0 * 0 /\
  exists r : R,
    THREE.length (getMagneticFieldVector (vfin 1 0 0) (Fin 0)) = Fin r.
Proof.
  assert (H : 0 < 1 * 1 + 0 * 0 + 0 * 0) by lra.
  split; [exact H|].
  destruct (field_magnitude_bounds 1 0 0 0 H) as (r & Hr & _).
  exists r. exact Hr.
Defined.

(** ** The orbit of Io and the counters of a run *)

(** Io stays on the circle of radius 12 in the plane [y = 0]. *)
Theorem ioPosition_on_orbit (a : R) :
  THREE.length (ioPosition (Fin a)) = Fin 12 /\
  vy (ioPosition (Fin a)) = Fin 0.
Proof.
  split; [|reflexivity].
  unfold ioPosition, MOONS_IO_ORBIT_RADIUS, MOONS_IO_ORBIT_SPEED.
  cbn [nmul ncos nsin].
  change (V3 (Fin (12 * cos (a * 0.005))) (Fin 0) (Fin (12 * sin (a * 0.005))))
    with (vfin (12 * cos (a * 0.005)) 0 (12 * sin (a * 0.005))).
  rewrite length_vfin. f_equal.
  pose proof (cos_sin_one (a * 0.005)) as H.
  set (C := cos (a * 0.005)) in *. set (S := sin (a * 0.005)) in *.
  replace (12 * C * (12 * C) + 0 * 0 + 12 * S * (12 * S))
    with (12 * 12 * (C * C + S * S)) by ring.
  rewrite H, Rmult_1_r. apply sqrt_square. lra.
Qed.

(** After [n] frames the frame counter is [n] and the planet has turned by
    [n] times the rotation speed. *)
Theorem run_counters (n : nat) (draws : nat -> nat -> Q) :
  angle (run n draws initialState) = Fin (INR n) /\
  jupiterRotationY (run n draws initialState) = Fin (INR n * 0.002).
Proof.
  induction n as [|n [IHa IHr]].
  - split; cbn [run initialState angle jupiterRotationY INR]; f_equal; lra.
  - rewrite run_S. unfold frame, animate. rewrite bind_eq.
    destruct (tick _ _ _ _ _ _) as [[er' sys'] k'].
    cbn [ret fst angle jupiterRotationY]. rewrite IHa, IHr.
    unfold JUPITER_ROTATION_SPEED. cbn [nadd]. rewrite S_INR.
    split; f_equal; lra.
Qed.

(** ** The buffers keep their length *)

(** A frame never changes the number of slots, whatever the state. *)
Theorem frame_keeps_length (rng : nat -> Q) (s : State) :
  length (particles (particleSystem (frame rng s)))
  = length (particles (particleSystem s)).
Proof.
  destruct (frame_state rng s) as [_ ->].
  rewrite tick_particles. cbn zeta.
  rewrite updateLoop_length. apply emission_length.
Qed.

Lemma run_length n draws :
  length (particles (particleSystem (run n draws initialState)))
  = Z.to_nat MAX_PARTICLES.
Proof.
  induction n as [|n IH].
  - cbn [run initialState particleSystem initialSystem particles].
    apply length_replicate.
  - rewrite run_S.
    destruct (frame_state (draws n) (run n draws initialState)) as [_ ->].
    rewrite tick_particles. cbn zeta.
    rewrite updateLoop_length, emission_length. exact IH.
Qed.

(** ** The eruption state along a run *)

Lemma advanceEruption_ok roll er :
  eruption_ok er -> eruption_ok (advanceEruption roll er).
Proof.
  unfold eruption_ok, advanceEruption, ERUPTION_DURATION, ERUPTION_COOLDOWN.
  destruct er as [[|] cd cl]; cbn [isActive countdown cooldown].
  - intros [H1 H2]. destruct (Z.leb_spec (cd - 1) 0);
      cbn [isActive countdown cooldown]; lia.
  - intros [H1 H2]. destruct (Z.ltb_spec 0 cl);
      cbn [isActive countdown cooldown]; [lia|].
    destruct (Qltb roll ERUPTION_CHANCE);
      cbn [isActive countdown cooldown]; lia.
Qed.

Theorem eruption_invariant (n : nat) (draws : nat -> nat -> Q) :
  eruption_ok (eruption (run n draws initialState)).
Proof.
  induction n as [|n IH].
  - unfold eruption_ok, ERUPTION_COOLDOWN. cbn. lia.
  - rewrite run_S, frame_eruption. apply advanceEruption_ok, IH.
Qed.

(** ** The counter during the cooldown and at saturation *)




(** Once the counter has reached the capacity no frame changes it. *)
Theorem activeParticles_saturates (n : nat) (draws : nat -> nat -> Q)
    (s : State) :
  (MAX_PARTICLES <= activeParticles (particleSystem s))%Z ->
  activeParticles (particleSystem (run n draws s))
  = activeParticles (particleSystem s).
Proof.
  intros Hs. induction n as [|n IH]; [reflexivity|].
  rewrite run_S.
  pose proof (frame_count (draws n) (run n draws s)) as [_ H].
  rewrite H; [exact IH | rewrite IH; exact Hs].
Qed.

Lemma activeParticles_saturates_witness :
  (MAX_PARTICLES <= activeParticles (particleSystem saturatedState))%Z /\
  activeParticles (particleSystem (run 3 (fun _ _ => 0%Q) saturatedState))
  = activeParticles (particleSystem saturatedState).
Proof.
  assert (H : (MAX_PARTICLES
               <= activeParticles (particleSystem saturatedState))%Z)
    by (vm_compute; discriminate).
  split; [exact H|].
  exact (activeParticles_saturates 3 (fun _ _ => 0%Q) saturatedState H).
Defined.

Lemma randomSlot_in_range_witness :
  (0 <= 1 # 2)%Q /\ (1 # 2 < 1)%Q /\
  (0 <= Qfloor ((1 # 2) * inject_Z MAX_PARTICLES) < MAX_PARTICLES)%Z.
Proof.
  assert (H0 : (0 <= 1 # 2)%Q) by discriminate.
  assert (H1 : (1 # 2 < 1)%Q) by reflexivity.
  split; [exact H0|]. split; [exact H1|].
  exact (randomSlot_in_range (1 # 2) H0 H1).
Defined.

(** ** The speed limit *)

Lemma sqrt_scaled a b c f :
  0 <= f ->
  sqrt (a * f * (a * f) + b * f * (b * f) + c * f * (c * f))
  = f * sqrt (a * a + b * b + c * c).
Proof.
  intros Hf.
  replace (a * f * (a * f) + b * f * (b * f) + c * f * (c * f))
    with (f * f * (a * a + b * b + c * c)) by ring.
  rewrite sqrt_mult by (try apply sumsq_nonneg; nra).
  rewrite sqrt_square by exact Hf. reflexivity.
Qed.

Lemma limitSpeed_scaled (a b c : R) :
  exists f : R,
    0 < f <= 1 /\
    limitSpeed (vfin a b c) = vfin (a * f) (b * f) (c * f) /\
    THREE.length (limitSpeed (vfin a b c))
    = Fin (Rmin (sqrt (a * a + b * b + c * c)) 0.2).
Proof.
  unfold limitSpeed. cbn zeta. rewrite length_vfin.
  set (r := sqrt (a * a + b * b + c * c)).
  unfold ngt. cbn [nlt].
  destruct (Rltb 0.2 r) eqn:G;
    [apply Rltb_lt in G | apply Rltb_ge in G].
  - exists (0.2 / r).
    assert (Hf : 0 < 0.2 / r) by (apply Rdiv_lt_0_compat; lra).
    assert (Hr : 0.2 / r * r = 0.2) by (field; lra).
    split; [split; [exact Hf|]|].
    { apply (Rmult_le_reg_r r); [lra|]. rewrite Hr. lra. }
    cbn [ndiv]. rewrite Reqb_false by lra.
    rewrite multiplyScalar_vfin. split; [reflexivity|].
    rewrite length_vfin, sqrt_scaled by lra. fold r.
    rewrite Hr, Rmin_right by lra. reflexivity.
  - exists 1. split; [lra|].
    replace (vfin (a * 1) (b * 1) (c * 1)) with (vfin a b c)
      by (unfold vfin; f_equal; f_equal; ring).
    split; [reflexivity|].
    rewrite length_vfin. fold r. rewrite Rmin_left by lra. reflexivity.
Qed.

(** On a finite velocity the limit keeps the direction and cuts the speed
    at 0.2: the velocity is scaled by a factor in (0, 1] and its length is
    the smaller of its old length and 0.2. *)
Theorem limitSpeed_clamps (a b c : R) :
  exists f : R,
    0 < f <= 1 /\
    limitSpeed (vfin a b c) = vfin (a * f) (b * f) (c * f) /\
    THREE.length (limitSpeed (vfin a b c))
    = Fin (Rmin (sqrt (a * a + b * b + c * c)) 0.2).
Proof. exact (limitSpeed_scaled a b c). Qed.

(** A limited velocity whose length is not NaN came from a finite one. *)
Lemma limitSpeed_valid_inv vel :
  isNaN (THREE.length (limitSpeed vel)) = false -> finite_vec vel.
Proof.
  unfold limitSpeed. cbn zeta.
  destruct (THREE.length vel) as [r| | |] eqn:E.
  - intros _. exact (length_fin_inv vel r E).
  - cbn [ngt nlt ndiv]. rewrite length_isNaN.
    destruct_vec vel; unfold THREE.multiplyScalar;
      cbn [vx vy vz nmul isNaN orb];
      rewrite ?Reqb_refl; cbn [isNaN orb];
      solve [discriminate | intros _; repeat split].
  - destruct (length_not_NInf vel E).
  - cbn [ngt nlt]. rewrite E. discriminate.
Qed.

Lemma speed_ok_zero3 pos col : speed_ok (mkParticle pos zero3 col).
Proof.
  exists 0. cbn [velocity]. rewrite length_zero3. split; [reflexivity | lra].
Qed.

(** Whatever the slot held, the velocity that the update leaves in it is no
    faster than 0.2. *)
Lemma updateParticle_speed io rot p rng k :
  speed_ok (fst (updateParticle io rot p rng k)).
Proof.
  unfold updateParticle. cbn zeta.
  destruct (isNaN (vx (position p)) || isNaN (vy (position p))
            || isNaN (vz (position p))) eqn:Hnan;
    [apply speed_ok_zero3|].
  destruct (ngt (THREE.length (position p)) MAX_DISTANCE
            || nlt (THREE.length (position p)) MIN_DISTANCE) eqn:Hb.
  { rewrite bind_eq. apply speed_ok_zero3. }
  set (acc := accelerate _ _ _ _).
  destruct (isNaN (THREE.length (limitSpeed acc))) eqn:Hv; cbn [negb];
    [apply speed_ok_zero3|].
  destruct (finite_vec_vfin _ (limitSpeed_valid_inv _ Hv)) as (a & b & c & E).
  rewrite E. destruct (limitSpeed_scaled a b c) as (f & _ & _ & Hlen).
  eexists. cbn [ret fst velocity]. split; [exact Hlen|].
  pose proof (sqrt_pos (a * a + b * b + c * c)).
  split.
  - apply Rmin_glb; lra.
  - apply Rmin_r.
Qed.

(** The speed bound: from the initial state, after any number of frames
    and with any draws, no particle is faster than 0.2 per frame. *)
Theorem speed_bound (n : nat) (draws : nat -> nat -> Q) :
  Forall speed_ok (particles (particleSystem (run n draws initialState))).
Proof.
  destruct n as [|n].
  - apply Forall_replicate. apply speed_ok_zero3.
  - rewrite run_S.
    destruct (frame_state (draws n) (run n draws initialState)) as [_ ->].
    rewrite tick_particles. cbn zeta.
    apply updateLoop_establishes.
    + intros p rng k. apply updateParticle_speed.
    + intros j p Hj. lia.
    + rewrite emission_length, run_length. lia.
Qed.

(** ** Recovery from an invalid velocity *)

Lemma nadd_finite_inv a b :
  is_finite (a + b)%num -> is_finite a /\ is_finite b.
Proof. destruct a, b; cbn; tauto. Qed.

Lemma nmul_finite_inv_l a c : is_finite (a * Fin c)%num -> is_finite a.
Proof.
  destruct a; cbn [nmul is_finite]; try tauto;
    destruct (Reqb c 0); unfold inf_of_sign;
    try destruct (Rltb 0 c); try destruct (Rltb 0 (- c)); cbn; tauto.
Qed.

Lemma add_finite_inv v w : finite_vec (THREE.add v w) -> finite_vec v.
Proof.
  unfold finite_vec, THREE.add. cbn [vx vy vz].
  intros (Hx & Hy & Hz).
  apply nadd_finite_inv in Hx, Hy, Hz. tauto.
Qed.

(** The forces cannot repair a velocity: a finite result needs a finite
    velocity to start from. *)
Lemma accelerate_finite_inv pos vel distance rot :
  finite_vec (accelerate pos vel distance rot) -> finite_vec vel.
Proof.
  unfold accelerate. cbn zeta. intros H.
  apply add_finite_inv in H.
  match type of H with
  | finite_vec (V3 (vx ?v) _ _) =>
      assert (H3 : finite_vec v)
        by (destruct H as (Hx & Hy & Hz); cbn [vx vy vz] in Hx, Hy, Hz;
            apply nmul_finite_inv_l in Hy; repeat split; assumption)
  end.
  clear H.
  repeat match type of H3 with
         | finite_vec (if ?c then _ else _) => destruct c
         | finite_vec (THREE.add _ _) => apply add_finite_inv in H3
         end.
  all: exact H3.
Qed.

(** A particle within the bounds whose velocity is not finite (NaN or
    infinite in some component) is sent back to exactly the position of Io,
    at rest, with its color, and no draw is read. *)
Theorem invalid_velocity_reset io rot p (rng : nat -> Q) k :
  isNaN (vx (position p)) || isNaN (vy (position p))
  || isNaN (vz (position p)) = false ->
  ngt (THREE.length (position p)) MAX_DISTANCE
  || nlt (THREE.length (position p)) MIN_DISTANCE = false ->
  ~ finite_vec (velocity p) ->
  updateParticle io rot p rng k = (mkParticle io zero3 (color p), k).
Proof.
  intros Hn Hb Hv. unfold updateParticle. cbn zeta. rewrite Hn, Hb.
  set (acc := accelerate _ _ _ _).
  destruct (isNaN (THREE.length (limitSpeed acc))) eqn:E; [reflexivity|].
  destruct Hv.
  exact (accelerate_finite_inv _ _ _ _ (limitSpeed_valid_inv _ E)).
Qed.

Lemma invalid_velocity_reset_witness :
  let p := mkParticle (vfin 10 0 0) (V3 NaN (Fin 0) (Fin 0)) backgroundColor in
  isNaN (vx (position p)) || isNaN (vy (position p))
  || isNaN (vz (position p)) = false /\
  ngt (THREE.length (position p)) MAX_DISTANCE
  || nlt (THREE.length (position p)) MIN_DISTANCE = false /\
  ~ finite_vec (velocity p) /\
  updateParticle (vfin 12 0 0) (Fin 0) p (fun _ => 0%Q) O
  = (mkParticle (vfin 12 0 0) zero3 backgroundColor, O).
Proof.
  cbn zeta.
  set (p := mkParticle (vfin 10 0 0) (V3 NaN (Fin 0) (Fin 0)) backgroundColor).
  assert (Hn : isNaN (vx (position p)) || isNaN (vy (position p))
               || isNaN (vz (position p)) = false) by reflexivity.
  assert (Hb : ngt (THREE.length (position p)) MAX_DISTANCE
               || nlt (THREE.length (position p)) MIN_DISTANCE = false).
  { unfold p. cbn [position]. rewrite length_vfin.
    replace (10 * 10 + 0 * 0 + 0 * 0) with (10 * 10) by ring.
    rewrite sqrt_square by lra.
    unfold ngt, MAX_DISTANCE, MIN_DISTANCE. cbn [nlt].
    rewrite !Rltb_false by lra. reflexivity. }
  assert (Hv : ~ finite_vec (velocity p)) by (intros [[] _]).
  split; [exact Hn|]. split; [exact Hb|]. split; [exact Hv|].
  exact (invalid_velocity_reset (vfin 12 0 0) (Fin 0) p (fun _ => 0%Q) O
           Hn Hb Hv).
Defined.

(** ** The slots are updated independently *)

(** After the loop over the first [n] slots, each of them holds the update
    of what it held before, computed from that slot alone (the other slots
    only decide which draws it reads); the slots from [n] on are as they
    were. *)
Theorem updateLoop_slotwise io rot (n : nat) (ps : list Particle)
    (rng : nat -> Q) (k j : nat) (p : Particle) :
  ps !! j = Some p ->
  let ps' := fst (updateLoop io rot n O ps rng k) in
  if (j <? n)%nat
  then exists k' : nat, ps' !! j = Some (fst (updateParticle io rot p rng k'))
  else ps' !! j = Some p.
Proof.
  intros Hj. cbn zeta.
  assert (G : forall n i ps k,
    ps !! j = Some p ->
    if ((i <=? j) && (j <? i + n))%nat
    then exists k' : nat,
        fst (updateLoop io rot n i ps rng k) !! j
        = Some (fst (updateParticle io rot p rng k'))
    else fst (updateLoop io rot n i ps rng k) !! j = Some p).
  { clear. induction n as [|n IH]; intros i ps k Hj.
    - replace ((i <=? j) && (j <? i + 0))%nat with false; [exact Hj|].
      destruct (Nat.leb_spec i j), (Nat.ltb_spec j (i + 0)); try reflexivity.
      lia.
    - rewrite updateLoop_S, bind_eq, updateSlot_eq.
      destruct (decide (j = i)) as [->|Hne].
      + rewrite Hj. cbn [fst snd].
        replace ((i <=? i) && (i <? i + S n))%nat with true
          by (symmetry; apply andb_true_iff; split;
              [apply Nat.leb_le | apply Nat.ltb_lt]; lia).
        exists k. rewrite updateLoop_lookup_lt by lia.
        apply list_lookup_insert_eq. apply lookup_lt_Some in Hj. exact Hj.
      + assert (Hj' : forall q, <[i := q]> ps !! j = Some p)
          by (intros q; rewrite list_lookup_insert_ne by congruence;
              exact Hj).
        replace ((i <=? j) && (j <? i + S n))%nat
          with ((S i <=? j) && (j <? S i + n))%nat.
        * destruct (ps !! i); cbn [fst snd]; apply IH; auto.
        * destruct (Nat.leb_spec (S i) j), (Nat.leb_spec i j),
            (Nat.ltb_spec j (S i + n)), (Nat.ltb_spec j (i + S n));
            try reflexivity; lia. }
  specialize (G n O ps k Hj). cbn [Nat.leb andb Nat.add] in G. exact G.
Qed.

Lemma updateLoop_slotwise_witness :
  particles initialSystem !! O = Some initialParticle /\
  exists k' : nat,
    fst (updateLoop (vfin 12 0 0) (Fin 0) 1 O (particles initialSystem)
           (fun _ => 0%Q) O) !! O
    = Some (fst (updateParticle (vfin 12 0 0) (Fin 0) initialParticle
                   (fun _ => 0%Q) k')).
Proof.
  assert (H : particles initialSystem !! O = Some initialParticle)
    by reflexivity.
  split; [exact H|].
  exact (updateLoop_slotwise (vfin 12 0 0) (Fin 0) 1
           (particles initialSystem) (fun _ => 0%Q) O O initialParticle H).
Defined.

(** ** The color far from Io *)

(** From the distance 5 to Io on, the color no longer changes: it is
    (0.2, 0.5, 1.0). *)
Theorem ionizationColor_saturates (a b c a' b' c' : R) :
  5 <= sqrt ((a - a') * (a - a') + (b - b') * (b - b')
             + (c - c') * (c - c')) ->
  ionizationColor (vfin a b c) (vfin a' b' c') = vfin 0.2 0.5 1.0.
Proof.
  unfold Rminus. intros Hd.
  unfold ionizationColor, THREE.sub, vfin. cbn [vx vy vz nsub nneg nadd].
  cbn zeta. unfold THREE.length. cbn [vx vy vz nmul nadd]. rw_sqrt.
  set (d := sqrt _) in *.
  cbn [ndiv]. rewrite Reqb_false by lra.
  cbn [nmin nlt]. rewrite (Rltb_false (d / 5.0) 1.0) by lra.
  cbn [nsub nneg nadd nmul nmax nlt].
  match goal with
  | |- context [Rltb ?x ?y] => rewrite (Rltb_false x y) by lra
  end.
  f_equal; f_equal; lra.
Qed.

Lemma ionizationColor_saturates_witness :
  5 <= sqrt ((5 - 0) * (5 - 0) + (0 - 0) * (0 - 0) + (0 - 0) * (0 - 0)) /\
  ionizationColor (vfin 5 0 0) (vfin 0 0 0) = vfin 0.2 0.5 1.0.
Proof.
  assert (H : 5 <= sqrt ((5 - 0) * (5 - 0) + (0 - 0) * (0 - 0)
                         + (0 - 0) * (0 - 0))).
  { replace ((5 - 0) * (5 - 0) + (0 - 0) * (0 - 0) + (0 - 0) * (0 - 0))
      with (5 * 5) by ring.
    rewrite sqrt_square; lra. }
  split; [exact H | exact (ionizationColor_saturates 5 0 0 0 0 0 H)].
Defined.

(** ** The Euclidean norm *)

Lemma cauchy_schwarz a b c u v w :
  a * u + b * v + c * w
  <= sqrt (a * a + b * b + c * c) * sqrt (u * u + v * v + w * w).
Proof.
  set (A := a * a + b * b + c * c). set (B := u * u + v * v + w * w).
  assert (HA : 0 <= A) by apply sumsq_nonneg.
  assert (HB : 0 <= B) by apply sumsq_nonneg.
  pose proof (sqrt_pos A) as PA. pose proof (sqrt_pos B) as PB.
  pose proof (sqrt_sqrt A HA) as SA. pose proof (sqrt_sqrt B HB) as SB.
  set (P := sqrt A) in *. set (V := sqrt B) in *.
  assert (L : (a * u + b * v + c * w) * (a * u + b * v + c * w) <= A * B).
  { unfold A, B.
    assert (0 <= (a * v - b * u) * (a * v - b * u)
                 + (a * w - c * u) * (a * w - c * u)
                 + (b * w - c * v) * (b * w - c * v)) by apply sumsq_nonneg.
    lra. }
  assert (E : A * B = P * V * (P * V)) by (rewrite <- SA, <- SB; ring).
  assert (PV : 0 <= P * V) by (apply Rmult_le_pos; assumption).
  destruct (Rle_lt_dec (a * u + b * v + c * w) (P * V)) as [H | H];
    [exact H|].
  exfalso. nra.
Qed.

Lemma norm_triangle a b c u v w :
  sqrt ((a + u) * (a + u) + (b + v) * (b + v) + (c + w) * (c + w))
  <= sqrt (a * a + b * b + c * c) + sqrt (u * u + v * v + w * w).
Proof.
  pose proof (cauchy_schwarz a b c u v w) as CS.
  set (A := a * a + b * b + c * c) in *.
  set (B := u * u + v * v + w * w) in *.
  assert (HA : 0 <= A) by apply sumsq_nonneg.
  assert (HB : 0 <= B) by apply sumsq_nonneg.
  pose proof (sqrt_pos A) as PA. pose proof (sqrt_pos B) as PB.
  pose proof (sqrt_sqrt A HA) as SA. pose proof (sqrt_sqrt B HB) as SB.
  set (P := sqrt A) in *. set (V := sqrt B) in *.
  rewrite <- (sqrt_square (P + V)) by lra.
  apply sqrt_le_1_alt. unfold A, B in *. nra.
Qed.

Lemma norm_triangle_rev a b c u v w :
  sqrt (a * a + b * b + c * c) - sqrt (u * u + v * v + w * w)
  <= sqrt ((a + u) * (a + u) + (b + v) * (b + v) + (c + w) * (c + w)).
Proof.
  pose proof (norm_triangle (a + u) (b + v) (c + w) (- u) (- v) (- w)) as H.
  replace ((a + u + - u) * (a + u + - u) + (b + v + - v) * (b + v + - v)
           + (c + w + - w) * (c + w + - w))
    with (a * a + b * b + c * c) in H by ring.
  replace (- u * - u + - v * - v + - w * - w)
    with (u * u + v * v + w * w) in H by ring.
  lra.
Qed.

(** ** Containment *)

Lemma ioPosition_vfin a :
  ioPosition (Fin a) = vfin (12 * cos (a * 0.005)) 0 (12 * sin (a * 0.005)).
Proof. reflexivity. Qed.

Lemma orbit_norm t :
  sqrt (12 * cos t * (12 * cos t) + 0 * 0 + 12 * sin t * (12 * sin t)) = 12.
Proof.
  pose proof (cos_sin_one t) as H.
  replace (12 * cos t * (12 * cos t) + 0 * 0 + 12 * sin t * (12 * sin t))
    with (12 * 12 * (cos t * cos t + sin t * sin t)) by ring.
  rewrite H, Rmult_1_r. apply sqrt_square. lra.
Qed.

Lemma Q2R_one : Q2R 1 = 1.
Proof. unfold Q2R. cbn. lra. Qed.

Lemma Q2R_unit (u : Q) : (0 <= u)%Q -> (u < 1)%Q -> 0 <= Q2R u <= 1.
Proof.
  intros H0 H1. split.
  - rewrite <- Q2R_zero. apply Qle_Rle, H0.
  - rewrite <- Q2R_one. apply Qle_Rle, Qlt_le_weak, H1.
Qed.

Lemma contained_at_io a vel col :
  contained (mkParticle (ioPosition (Fin a)) vel col).
Proof.
  exists 12. cbn [position].
  rewrite ioPosition_vfin, length_vfin, orbit_norm. split; [reflexivity|lra].
Qed.

Lemma contained_near_io a (rng : nat -> Q) k vel col :
  (forall i, (0 <= rng i)%Q /\ (rng i < 1)%Q) ->
  contained (mkParticle (fst (jitter (ioPosition (Fin a)) (Fin 0.8) rng k))
               vel col).
Proof.
  intros Hrng. unfold contained. rewrite jitter_eq, ioPosition_vfin.
  unfold ofQ, vfin. cbn [fst position vx vy vz nsub nneg nadd nmul].
  set (j1 := (Q2R (rng k) + - (0.5)) * 0.8).
  set (j2 := (Q2R (rng (S k)) + - (0.5)) * 0.8).
  set (j3 := (Q2R (rng (S (S k))) + - (0.5)) * 0.8).
  set (X := 12 * cos (a * 0.005)). set (Z := 12 * sin (a * 0.005)).
  change (V3 (Fin (X + j1)) (Fin (0 + j2)) (Fin (Z + j3)))
    with (vfin (X + j1) (0 + j2) (Z + j3)).
  rewrite length_vfin. eexists. split; [reflexivity|].
  pose proof (Q2R_unit _ (proj1 (Hrng k)) (proj2 (Hrng k))) as U1.
  pose proof (Q2R_unit _ (proj1 (Hrng (S k))) (proj2 (Hrng (S k)))) as U2.
  pose proof (Q2R_unit _ (proj1 (Hrng (S (S k))))
                (proj2 (Hrng (S (S k))))) as U3.
  assert (J : sqrt (j1 * j1 + j2 * j2 + j3 * j3) <= 0.7).
  { rewrite <- (sqrt_square 0.7) by lra. apply sqrt_le_1_alt.
    unfold j1, j2, j3. nra. }
  pose proof (norm_triangle X 0 Z j1 j2 j3) as T1.
  pose proof (norm_triangle_rev X 0 Z j1 j2 j3) as T2.
  unfold X, Z in T1, T2. rewrite orbit_norm in T1, T2.
  fold X Z in T1, T2. lra.
Qed.

(** With Io on its orbit and the draws in [0, 1), whatever the slot held,
    the update leaves it between 2.8 and 30.2 from the centre of
    Jupiter. *)
Lemma updateParticle_contained a rot p (rng : nat -> Q) k :
  (forall i, (0 <= rng i)%Q /\ (rng i < 1)%Q) ->
  contained (fst (updateParticle (ioPosition (Fin a)) rot p rng k)).
Proof.
  intros Hrng. unfold updateParticle. cbn zeta.
  destruct (isNaN (vx (position p)) || isNaN (vy (position p))
            || isNaN (vz (position p))) eqn:Hnan;
    [apply contained_at_io|].
  destruct (ngt (THREE.length (position p)) MAX_DISTANCE
            || nlt (THREE.length (position p)) MIN_DISTANCE) eqn:Hb.
  { rewrite bind_eq. apply contained_near_io, Hrng. }
  set (acc := accelerate _ _ _ _).
  destruct (isNaN (THREE.length (limitSpeed acc))) eqn:Hv; cbn [negb];
    [apply contained_at_io|].
  destruct (finite_vec_vfin _ (in_bounds_finite _ Hnan Hb))
    as (x & y & z & Ep).
  destruct (finite_vec_vfin _ (limitSpeed_valid_inv _ Hv)) as (a1 & b1 & c1 & E).
  rewrite E. destruct (limitSpeed_scaled a1 b1 c1) as (f & _ & Ef & Hlen).
  rewrite Ef in Hlen |- *. rewrite length_vfin in Hlen.
  injection Hlen as Hlen.
  rewrite Ep in Hb |- *. rewrite length_vfin in Hb.
  unfold ngt, MAX_DISTANCE, MIN_DISTANCE in Hb. cbn [nlt] in Hb.
  apply orb_false_iff in Hb. destruct Hb as [B1 B2].
  apply Rltb_ge in B1, B2.
  unfold contained. cbn [ret fst position].
  change (THREE.add (vfin x y z) (vfin (a1 * f) (b1 * f) (c1 * f)))
    with (vfin (x + a1 * f) (y + b1 * f) (z + c1 * f)).
  rewrite length_vfin. eexists. split; [reflexivity|].
  pose proof (norm_triangle x y z (a1 * f) (b1 * f) (c1 * f)) as T1.
  pose proof (norm_triangle_rev x y z (a1 * f) (b1 * f) (c1 * f)) as T2.
  pose proof (Rmin_r (sqrt (a1 * a1 + b1 * b1 + c1 * c1)) 0.2) as M.
  pose proof (sqrt_pos (a1 * f * (a1 * f) + b1 * f * (b1 * f)
                        + c1 * f * (c1 * f))) as P.
  rewrite Hlen in T1, T2, P. lra.
Qed.

Lemma updateLoop_establishes_rng (P : Particle -> Prop) io rot
    (rng : nat -> Q) :
  (forall p k, P (fst (updateParticle io rot p rng k))) ->
  forall n i ps k,
    (forall j p, (j < i)%nat -> ps !! j = Some p -> P p) ->
    (length ps <= i + n)%nat ->
    Forall P (fst (updateLoop io rot n i ps rng k)).
Proof.
  intros HP. induction n as [|n IH]; intros i ps k Hlow Hlen.
  - cbn [updateLoop ret fst]. apply Forall_lookup_2. intros j p Hj.
    apply (Hlow j p); [|exact Hj].
    apply lookup_lt_Some in Hj. lia.
  - rewrite updateLoop_S, bind_eq. apply IH.
    + intros j p Hj. rewrite updateSlot_eq.
      destruct (ps !! i) as [q|] eqn:E; cbn [fst].
      * destruct (decide (j = i)) as [->|Hne].
        -- rewrite list_lookup_insert_eq by (apply lookup_lt_Some in E; lia).
           intros [= <-]. apply HP.
        -- rewrite list_lookup_insert_ne by congruence.
           apply Hlow. lia.
      * destruct (decide (j = i)) as [->|Hne]; [congruence|].
        apply Hlow. lia.
    + rewrite updateSlot_length. lia.
Qed.

(** Containment: from the initial state, with draws in [0, 1), after every
    frame every particle is at a distance between 2.8 and 30.2 from the
    centre of Jupiter. *)
Theorem particles_contained (n : nat) (draws : nat -> nat -> Q) :
  (forall t i, (0 <= draws t i)%Q /\ (draws t i < 1)%Q) ->
  Forall contained
    (particles (particleSystem (run (S n) draws initialState))).
Proof.
  intros Hd. rewrite run_S.
  destruct (frame_state (draws n) (run n draws initialState)) as [_ ->].
  rewrite tick_particles. cbn zeta.
  pose proof (run_angle_finite n draws) as Ha.
  destruct (angle (run n draws initialState)) as [a| | |];
    try contradiction.
  apply updateLoop_establishes_rng.
  - intros p k. apply updateParticle_contained, Hd.
  - intros j p Hj. lia.
  - rewrite emission_length, run_length. lia.
Qed.

Lemma particles_contained_witness :
  (forall t i : nat, (0 <= 0)%Q /\ (0 < 1)%Q) /\
  Forall contained
    (particles (particleSystem (run 1 (fun _ _ => 0%Q) initialState))).
Proof.
  assert (H : forall t i : nat, (0 <= 0)%Q /\ (0 < 1)%Q).
  { intros t i. split; [discriminate | reflexivity]. }
  split; [exact H|].
  exact (particles_contained O (fun _ _ => 0%Q) H).
Defined.

(** ** The particles that the emitter launches *)








(** ** A frame of background emission *)

(** In a frame of background emission below the capacity (idle, no
    cooldown, the first draw not below the eruption chance, the second below
    the emission rate) the emitter writes exactly one slot, the one of the
    counter, in the background color, adds one to the counter, leaves the
    eruption state alone and reads six draws. *)
Theorem background_emission_grows io (er : Eruption) (sys : ParticleSystem)
    (rng : nat -> Q) :
  isActive er = false -> cooldown er = 0%Z ->
  Qltb (rng O) ERUPTION_CHANCE = false ->
  Qltb (rng 1%nat) BASE_EMISSION_RATE = true ->
  (0 <= activeParticles sys < MAX_PARTICLES)%Z ->
  length (particles sys) = Z.to_nat MAX_PARTICLES ->
  let r := emission io (activeParticles sys) er sys rng O in
  let slot := Z.to_nat (activeParticles sys) in
  fst (fst r) = er /\
  activeParticles (snd (fst r)) = (activeParticles sys + 1)%Z /\
  (exists p, particles (snd (fst r)) !! slot = Some p
             /\ color p = backgroundColor) /\
  (forall j : nat, j <> slot ->
     particles (snd (fst r)) !! j = particles sys !! j) /\
  snd r = 6%nat.
Proof.
  intros Ha Hc H1 H2 Hr Hlen. cbn zeta.
  unfold emission. rewrite Ha, Hc. cbn [Z.ltb Z.compare].
  rewrite bind_eq. cbn [random fst snd]. rewrite H1.
  rewrite bind_eq. cbn [random fst snd]. rewrite H2.
  rewrite bind_eq. unfold emitBackgroundParticle.
  rewrite emitParticle_eq. cbn zeta.
  assert (Hlt : (activeParticles sys <? MAX_PARTICLES)%Z = true)
    by (apply Z.ltb_lt; lia).
  rewrite Hlt. cbn [ret fst snd particles activeParticles].
  split; [reflexivity|]. split; [reflexivity|].
  unfold writeSlot.
  assert (H0 : (0 <=? activeParticles sys)%Z = true)
    by (apply Z.leb_le; lia).
  rewrite H0. split; [|split; [|reflexivity]].
  - eexists. split.
    + apply list_lookup_insert_eq. rewrite Hlen.
      unfold MAX_PARTICLES in *. lia.
    + reflexivity.
  - intros j Hj. apply list_lookup_insert_ne. congruence.
Qed.

Lemma background_emission_grows_witness :
  isActive initialEruption = false /\ cooldown initialEruption = 0%Z /\
  Qltb (backgroundDraws O) ERUPTION_CHANCE = false /\
  Qltb (backgroundDraws 1%nat) BASE_EMISSION_RATE = true /\
  (0 <= activeParticles initialSystem < MAX_PARTICLES)%Z /\
  length (particles initialSystem) = Z.to_nat MAX_PARTICLES /\
  activeParticles
    (snd (fst (emission (vfin 12 0 0) (activeParticles initialSystem)
                 initialEruption initialSystem backgroundDraws O)))
  = (activeParticles initialSystem + 1)%Z.
Proof.
  assert (Hr : (0 <= activeParticles initialSystem < MAX_PARTICLES)%Z)
    by (split; [discriminate | reflexivity]).
  assert (Hlen : length (particles initialSystem) = Z.to_nat MAX_PARTICLES)
    by reflexivity.
  repeat (split; [first [reflexivity | exact Hr | exact Hlen]|]).
  exact (proj1 (proj2 (background_emission_grows (vfin 12 0 0)
                         initialEruption initialSystem backgroundDraws
                         eq_refl eq_refl eq_refl eq_refl Hr Hlen))).
Defined.

(** ** The field lines *)

Lemma length_mirrorPoint p :
  THREE.length (mirrorPoint p) = THREE.length p.
Proof.
  destruct_vec p; unfold mirrorPoint, THREE.length;
    cbn [vx vy vz nneg nmul nadd]; try reflexivity.
  do 2 f_equal. ring.
Qed.

Lemma INR_49 : INR FIELD_LINE_POINTS + - (1) = 49.
Proof.
  unfold FIELD_LINE_POINTS. rewrite INR_IZR_INZ.
  change (Z.of_nat 50) with 50%Z. lra.
Qed.

(** Every point of a field line lies on the sphere of its radius. *)
Lemma fieldLinePoint_length i j :
  THREE.length (fieldLinePoint i j) = Fin (fieldLineRadius j).
Proof.
  unfold fieldLinePoint, ofNat, FIELD_LINE_LENGTH. cbn zeta.
  rewrite MAGNETIC_TILT_eq. cbn [nsub nneg nadd].
  rewrite INR_49. cbn [ndiv].
  rewrite (Reqb_false 49 0), (Reqb_false 2 0) by lra.
  assert (H16 : INR NUM_FIELD_LINES <> 0).
  { unfold NUM_FIELD_LINES. rewrite INR_IZR_INZ.
    change (Z.of_nat 16) with 16%Z. lra. }
  rewrite (Reqb_false _ 0 H16).
  cbn [nsub nneg nmul nadd ncos nsin].
  set (r := 1.0 + INR j / 49 * 20).
  set (phi := PI / 2 + - ((PI + - (PI / 10)) * cos (INR j / 49 * PI))).
  set (theta := INR i / INR NUM_FIELD_LINES * PI * 2).
  change (V3 (Fin (r * sin phi * cos theta)) (Fin (r * cos phi))
             (Fin (r * sin phi * sin theta)))
    with (vfin (r * sin phi * cos theta) (r * cos phi)
               (r * sin phi * sin theta)).
  rewrite length_vfin. f_equal.
  pose proof (cos_sin_one phi) as Hp. pose proof (cos_sin_one theta) as Ht.
  assert (Hr : 0 <= r).
  { unfold r. pose proof (pos_INR j). nra. }
  replace (r * sin phi * cos theta * (r * sin phi * cos theta)
           + r * cos phi * (r * cos phi)
           + r * sin phi * sin theta * (r * sin phi * sin theta))
    with (r * r * (sin phi * sin phi
                   * (cos theta * cos theta + sin theta * sin theta)
                   + cos phi * cos phi)) by ring.
  rewrite Ht, Rmult_1_r.
  replace (sin phi * sin phi + cos phi * cos phi) with 1 by lra.
  rewrite Rmult_1_r, sqrt_square by exact Hr.
  unfold r, fieldLineRadius. lra.
Qed.

Lemma fold_left_push {A B : Type} (f : A -> list B) (l : list A) :
  forall acc : list B,
    fold_left (fun acc i => acc ++ f i) l acc = acc ++ flat_map f l.
Proof.
  induction l as [|x l IH]; intros acc; cbn [fold_left flat_map].
  - symmetry. apply app_nil_r.
  - rewrite IH. symmetry. apply app_assoc.
Qed.

(** [createFieldLines] leaves 32 lines, whatever lines there were: 16 lines
    and their mirror images.  Each has 50 points, and its point number [j]
    is at the distance [1 + 20 j / 49] from the origin: every line starts
    on the sphere of radius 1 and ends on the sphere of radius 21. *)
Theorem createFieldLines_shape (old : list (list Vector3)) :
  length (createFieldLines old) = 32%nat /\
  Forall (fun line =>
            map THREE.length line
            = map (fun j => Fin (fieldLineRadius j)) (seq 0 50))
    (createFieldLines old).
Proof.
  unfold createFieldLines. cbn zeta.
  rewrite (fold_left_push
             (fun i => [map (fieldLinePoint i) (seq 0 FIELD_LINE_POINTS);
                        map mirrorPoint
                          (map (fieldLinePoint i)
                             (seq 0 FIELD_LINE_POINTS))])).
  rewrite app_nil_l. split.
  - rewrite flat_map_constant_length with (c := 2%nat); [reflexivity|].
    intros x _. reflexivity.
  - apply Forall_flat_map, Forall_forall. intros i _.
    assert (E : map THREE.length
                  (map (fieldLinePoint i) (seq 0 FIELD_LINE_POINTS))
                = map (fun j => Fin (fieldLineRadius j)) (seq 0 50)).
    { rewrite map_map. apply map_ext. intros j.
      apply fieldLinePoint_length. }
    repeat constructor; [exact E|].
    rewrite map_map.
    rewrite (map_ext _ _ length_mirrorPoint), <- E. reflexivity.
Qed.
